(** * Flood routing through a drainage network with leaky dams

    A shallow embedding of the two model notebooks of the repository:
    the numerical (quasi-steady, volume only) model and the hysteresis
    (height and volume) model.  Both build a per-segment discharge relation
    [Qfun] and storage relation [Vfun], a right-hand side for the ODE
    system, and drive scipy's [solve_ivp] in two phases. *)

From Stdlib Require Import Reals Lra Lia List ZArith Bool Arith.
Import ListNotations.

Open Scope R_scope.

(** ** Python and numpy arithmetic

    A Python float is modelled as an exact real or NaN: rounding and overflow
    are not modelled, NaN is, because the formulas of the notebooks leave the
    reals exactly where IEEE arithmetic produces NaN (square roots and
    fractional powers of negative numbers).  Division by zero also gives
    [NaN] here. *)

Module Py.

Definition float := option R.
Definition NaN : float := None.
Definition fin (r : R) : float := Some r.

Definition isnan (a : float) : bool :=
  match a with Some _ => false | None => true end.

Definition lift2 (f : R -> R -> R) (a b : float) : float :=
  match a, b with
  | Some x, Some y => Some (f x y)
  | _, _ => None
  end.

Definition fadd := lift2 Rplus.
Definition fsub := lift2 Rminus.
Definition fmul := lift2 Rmult.

Definition fdiv (a b : float) : float :=
  match a, b with
  | Some x, Some y => if Req_dec_T y 0 then None else Some (x / y)
  | _, _ => None
  end.

(** Comparisons: every comparison with NaN is false. *)
Definition flt (a b : float) : bool :=
  match a, b with
  | Some x, Some y => if Rlt_dec x y then true else false
  | _, _ => false
  end.
Definition fgt (a b : float) : bool := flt b a.
Definition feq (a b : float) : bool :=
  match a, b with
  | Some x, Some y => if Req_dec_T x y then true else false
  | _, _ => false
  end.

(** [np.sqrt]: NaN below zero. *)
Definition np_sqrt (a : float) : float :=
  match a with
  | Some x => if Rlt_dec x 0 then None else Some (sqrt x)
  | None => None
  end.

(** [math.sqrt] on the slopes, which the data handling keeps positive; a
    negative argument is a domain error, here NaN. *)
Definition math_sqrt (a : float) : float := np_sqrt a.

(** [a ** y] for a float exponent [y] that is positive and not an integer
    (5/3, 3/2, 3/5 and 1/2 in the notebooks): NaN for a negative base,
    0 at 0. *)
Definition rpow (x y : R) : R :=
  if Req_dec_T x 0 then 0 else Rpower x y.

Definition fpow (a : float) (y : R) : float :=
  match a with
  | Some x => if Rlt_dec x 0 then None else Some (rpow x y)
  | None => None
  end.

(** [a ** 2], an integer power. *)
Definition fsqr (a : float) : float := fmul a a.

(** The builtins [max(a, b)] and [min(a, b)]: the first argument is kept
    unless the second one compares strictly beyond it. *)
Definition max (a b : float) : float := if fgt b a then b else a.
Definition min (a b : float) : float := if flt b a then b else a.

(** A bool used as a number. *)
Definition of_bool (b : bool) : float := if b then fin 1 else fin 0.

(** [np.linspace(a, b, n)]: [a + j * step] with [step = (b - a) / (n - 1)]. *)
Definition linspace (a b : R) (n : nat) : list R :=
  map (fun j => a + INR j * ((b - a) / INR (n - 1))) (seq 0 n).

(** Float [x % m] (the result has the sign of [m]) and [int(x)]
    (truncation towards zero). *)
Definition fmod (x m : R) : R := x - m * IZR (Int_part (x / m)).
Definition py_int (x : R) : Z :=
  if Rle_dec 0 x then Int_part x else (- Int_part (- x))%Z.

(** Arrays: a one-dimensional array is a list, a matrix a function of its
    two indices. *)
Definition fsum (xs : list float) : float := fold_right fadd (fin 0) xs.
Definition vadd (xs ys : list float) : list float :=
  map (fun p => fadd (fst p) (snd p)) (combine xs ys).
Definition vsub (xs ys : list float) : list float :=
  map (fun p => fsub (fst p) (snd p)) (combine xs ys).

(** [A.T.dot(Q)] for an [n] by [n] matrix [A] and a column [Q]. *)
Definition dotT (n : nat) (A : nat -> nat -> R) (Q : list float) : list float :=
  map (fun j => fsum (map (fun i => fmul (fin (A i j)) (nth i Q NaN)) (seq 0 n)))
      (seq 0 n).

(** [np.interp(x, xp, fp)] for a scalar [x].  The index search returns the
    [j] with [xp[j] <= x < xp[j+1]]; on a non-decreasing [xp], which is what
    numpy requires, that is the left-to-right scan below (numpy's own search
    for short tables).  Outside the table the edge values of [fp] are
    returned. *)
Definition fge (a b : float) : bool :=
  match a, b with
  | Some x, Some y => if Rle_dec y x then true else false
  | _, _ => false
  end.

Fixpoint scan (key : float) (rest : list float) (i : nat) : nat :=
  match rest with
  | [] => i
  | a :: rest' => if fge key a then scan key rest' (S i) else i
  end.

Definition interp (x : float) (xp fp : list float) : float :=
  if isnan x then x
  else
    let len := length xp in
    if fgt x (nth (len - 1) xp NaN) then nth (len - 1) fp NaN
    else if flt x (nth 0 xp NaN) then nth 0 fp NaN
    else
      let j := (scan x (tl xp) 1 - 1)%nat in
      if (j =? len - 1)%nat then nth j fp NaN
      else if feq (nth j xp NaN) x then nth j fp NaN
      else
        let slope := fdiv (fsub (nth (j + 1) fp NaN) (nth j fp NaN))
                          (fsub (nth (j + 1) xp NaN) (nth j xp NaN)) in
        let r := fadd (fmul slope (fsub x (nth j xp NaN))) (nth j fp NaN) in
        if isnan r then
          let r' := fadd (fmul slope (fsub x (nth (j + 1) xp NaN)))
                         (nth (j + 1) fp NaN) in
          if isnan r' && feq (nth j fp NaN) (nth (j + 1) fp NaN)
          then nth j fp NaN else r'
        else r.

(** What running a block of Python gives: a value, or a raised exception. *)
Inductive exn := IndexError | NameError.
Inductive outcome (A : Type) := Returned (a : A) | Raised (e : exn).
Arguments Returned {A} a.
Arguments Raised {A} e.

(** Running one statement after another: the first exception ends the
    block. *)
Definition bind {A B : Type} (c : outcome A) (k : A -> outcome B) : outcome B :=
  match c with
  | Returned a => k a
  | Raised e => Raised e
  end.

(** A list comprehension [[f(x) for x in xs]] whose body may raise. *)
Fixpoint comprehension {A B : Type} (f : A -> outcome B) (xs : list A)
  : outcome (list B) :=
  match xs with
  | [] => Returned []
  | x :: xs' =>
      bind (f x) (fun b => bind (comprehension f xs') (fun bs => Returned (b :: bs)))
  end.

(** The three dam columns [k], [h_l] and [h_u] of the data frame, read by
    segment index, and the assignment [column[dam] = v]. *)
Record dam_columns := {
  col_k : nat -> R;
  col_h_l : nat -> R;
  col_h_u : nat -> R
}.

Definition set_at (column : nat -> R) (dam : nat) (v : R) : nat -> R :=
  fun i => if (i =? dam)%nat then v else column i.

End Py.

Import Py.

Declare Scope float_scope.
Delimit Scope float_scope with fl.
Bind Scope float_scope with float.
Infix "+" := fadd : float_scope.
Infix "-" := fsub : float_scope.
Infix "*" := fmul : float_scope.
Infix "/" := fdiv : float_scope.
Notation "a ** y" := (fpow a y) (at level 30, right associativity) : float_scope.
Notation "a <? b" := (flt a b) : float_scope.
Notation "a >? b" := (fgt a b) : float_scope.
Notation "# r" := (fin r) (at level 9, r at level 9, format "# r") : float_scope.
Notation "x <- c ;; k" := (bind c (fun x => k))
  (at level 61, c at next level, right associativity).

(** ** scipy: the root finder and the initial value problem solver

    Both are library code; the notebooks are modelled for an arbitrary
    [root] and an arbitrary [solve_ivp] with these interfaces.  The
    right-hand side handed to [solve_ivp] returns a value of type [Y]: a
    list of floats, or the outcome of a function that may raise. *)

Module Scipy.

Record OptimizeResult := { x : list float; success : bool }.

Inductive ode_method := RK45 | RK23 | DOP853 | Radau | BDF | LSODA.

(** The explicit Runge-Kutta methods against the implicit (stiff) ones. *)
Definition implicit (m : ode_method) : bool :=
  match m with
  | Radau | BDF | LSODA => true
  | RK45 | RK23 | DOP853 => false
  end.

Record ivp_call_of (Y : Type) := {
  rhs : R -> list float -> Y;
  t_span : R * R;
  y0 : list float;
  t_eval : option (list R);
  atol : R;
  rtol : R;
  method : ode_method
}.
Arguments Build_ivp_call_of {Y}.
Arguments rhs {Y}.
Arguments t_span {Y}.
Arguments y0 {Y}.
Arguments t_eval {Y}.
Arguments atol {Y}.
Arguments rtol {Y}.
Arguments method {Y}.

Definition ivp_call : Type := ivp_call_of (list float).

(** The defaults of [solve_ivp]. *)
Definition default_method : ode_method := RK45.
Definition default_rtol : R := 1e-3.
Definition default_atol : R := 1e-6.

(** [y] holds one state per time point: [sol.y[:, j]] is [nth j (y sol)]. *)
Record OdeResult := { t : list R; y : list (list float) }.

(** [sol.y[:, -1]] *)
Definition last_column (sol : OdeResult) : list float := last (y sol) [].

End Scipy.

Import Scipy.

(** ** The numerical (quasi-steady) model *)

Module Numerical.

(** *** Inputs and general data handling *)

Definition lambda_val : R := 10.
Definition eval_no : nat := 100.
(** [(end - start).total_seconds()]: two days. *)
Definition total_seconds : R := 172800.

Section DataHandling.

Variable N : nat.
Variables TONODE FROMNODE : nat -> Z.
Variables Shape_Leng Slope widths : nat -> R.
Variable dams : list nat.
Variables lower_heights upper_heights kvals : list R.

Definition Adj (i j : nat) : R :=
  if (TONODE i =? FROMNODE j)%Z then 1 else 0.

Definition data_l (i : nat) : R := Shape_Leng i.
Definition data_S (i : nat) : R :=
  let s := Slope i * -1 in
  if Rle_dec s 0.1 then 0.1 else s.
Definition data_w (i : nat) : R := widths i.

(** Every segment starts with a dam too high to matter. *)
Definition no_dams : dam_columns :=
  {| col_k := fun _ => 0;
     col_h_l := fun _ => 100 * 1;
     col_h_u := fun _ => 101 * 1 |}.

(** [for i, dam in enumerate(dams)]: the three columns are set at [dam] from
    position [i] of [kvals], [lower_heights] and [upper_heights], in that
    order; a list that has no position [i] raises [IndexError] and ends the
    loop.  The entries of [dams] are segment indices, and an assignment
    through [data_df.k[dam]] writes into the frame. *)
Fixpoint assign (data_df : dam_columns) (i : nat) (ds : list nat)
  : outcome dam_columns :=
  match ds with
  | [] => Returned data_df
  | dam :: ds' =>
      match nth_error kvals i with
      | None => Raised IndexError
      | Some kv =>
          match nth_error lower_heights i with
          | None => Raised IndexError
          | Some lo =>
              match nth_error upper_heights i with
              | None => Raised IndexError
              | Some up =>
                  assign {| col_k := set_at (col_k data_df) dam kv;
                            col_h_l := set_at (col_h_l data_df) dam lo;
                            col_h_u := set_at (col_h_u data_df) dam up |}
                         (S i) ds'
              end
          end
      end
  end.

Definition data_dams : outcome dam_columns := assign no_dams 0 dams.

End DataHandling.

(** *** Nondimensionalising *)

Definition manning : R := 0.03.
Definition cst_w : R := 2.
Definition cst_h : R := 1.
Definition cst_S : R := 0.05.
Definition cst_g : R := 9.8.
Definition cst_l : R := 100.
Definition cst_Q : R := cst_w * Rpower cst_h (5/3) * Rpower cst_S (1/2) / manning.
Definition cst_t : R := cst_l * cst_w * cst_h / cst_Q.
Definition cst_V : R := cst_l * cst_w * cst_h.
Definition cst_alpha : R := cst_h / cst_w.
Definition cst_gamma : R := sqrt (2 * cst_g) * Rpower cst_h (3/2) * cst_w / cst_Q.
Definition cst_beta : R := cst_h / (cst_S * cst_l).
Definition cst_lambda (i : nat) : R := lambda_val * 1.

Definition df_l (data_l : nat -> R) (i : nat) : R := data_l i / cst_l.
Definition df_S (data_S : nat -> R) (i : nat) : R := data_S i / cst_S.
Definition df_w (data_w : nat -> R) (i : nat) : R := data_w i / cst_w.
Definition df_h_l (data_h_l : nat -> R) (i : nat) : R := data_h_l i / cst_h.
Definition df_h_u (data_h_u : nat -> R) (i : nat) : R := data_h_u i / cst_h.
Definition df_k (data_k : nat -> R) (i : nat) : R := data_k i.

Section Model.

Variable N : nat.
(** The adjacency matrix and the rain table.  Row [i] of [rainvals] is
    the inflow of the [i]th quarter of an hour; the compiled [rainfun] does
    not check the row index. *)
Variable Adj : nat -> nat -> R.
Variable rainvals : Z -> nat -> R.
(** The scaled per-segment tuples, read by segment index. *)
Variables l S w h_l h_u k : nat -> R.
Variable root : (float -> float) -> R -> OptimizeResult.
Variable solve_ivp : ivp_call -> OdeResult.

Definition rainfun (t : R) : nat -> R :=
  let minutes := t / 60 in
  let i := py_int ((minutes - fmod minutes 15) / 15) in
  rainvals i.

(** *** The flow function *)

Definition Qfric (h : float) (i : nat) : float :=
  (#(w i) * h ** (5/3) * np_sqrt #(S i))%fl.

Definition Qdam (h : float) (i : nat) : float :=
  let a1 := (#(h_l i) * h / np_sqrt (h + #(h_l i)))%fl in
  let a2 := (#(k i) * np_sqrt h * min (h - #(h_l i)) (#(h_u i) - #(h_l i)))%fl in
  let a3 := (#(0.6 * 2 / 3) * (max #0 (h - #(h_u i))) ** (3/2))%fl in
  (#cst_gamma * #(w i) * (a1 + a2 + a3))%fl.

(** The critical heights: [root(fun, h_u[i]).x[0]] for each segment. *)
Definition fun_ (i : nat) (z : float) : float :=
  let fric := Qfric z i in
  let dam := Qdam z i in
  (fric - dam)%fl.

Fixpoint hcrit_loop (segments : list nat) (hcrit : list float)
  : outcome (list float) :=
  match segments with
  | [] => Returned hcrit
  | i :: rest =>
      match x (root (fun_ i) (h_u i)) with
      | [] => Raised IndexError
      | x0 :: _ => hcrit_loop rest (hcrit ++ [x0])
      end
  end.

Definition hcrit_build : outcome (list float) := hcrit_loop (seq 0 N) [].

Section Relations.

Variable hcrit : nat -> float.

Definition Qfun (h : float) (i : nat) : float :=
  if (h <? max (hcrit i) #(h_l i))%fl then Qfric h i else Qdam h i.

Definition Vfun (h : float) (i : nat) : float :=
  let hstr := ((Qfun h i / #(w i) / np_sqrt #(S i)) ** (3/5))%fl in
  if (h <? hstr + #(S i * l i / cst_beta))%fl
  then (#(w i * l i) * hstr
        + #(cst_lambda i * 0.5 * cst_beta * w i) * fsqr (max #0 (h - hstr)) / #(S i))%fl
  else (#(w i * l i)
        * (h - #(S i * l i / cst_beta) + #(cst_lambda i / 2 * S i * l i / cst_beta)))%fl.

(** *** The tables *)

Fixpoint running_max (runmax : float) (vs : list float) : list float :=
  match vs with
  | [] => []
  | v :: vs' => let runmax' := max runmax v in runmax' :: running_max runmax' vs'
  end.

Definition grid : list R := linspace 0 20 100.

Definition Vapprox (i : nat) : list float :=
  running_max #0 (map (fun h => Vfun #h i) grid).

Definition Qapprox (i : nat) : list float :=
  map (fun h => Qfun #h i) grid.

Definition Qvals (V : list float) : list float :=
  map (fun i => interp (nth i V NaN) (Vapprox i) (Qapprox i)) (seq 0 N).

(** *** The derivative *)

Definition derivative (t : R) (V : list float) : list float :=
  let q := map (fun i => fin (rainfun (t * cst_t) i / cst_Q)) (seq 0 N) in
  let Q := Qvals V in
  vadd (vsub (dotT N Adj Q) Q) q.

(** *** The two integrations *)

Definition derivative2 (t : R) (V : list float) : list float :=
  derivative 0 V.

Definition warmup_call : ivp_call :=
  {| rhs := derivative2;
     t_span := (0, 60 * 60 / cst_t);
     y0 := repeat (fin 0) N;
     t_eval := None;
     atol := 1e-3;
     rtol := default_rtol;
     method := default_method |}.

Definition initial : list float := last_column (solve_ivp warmup_call).

Definition T : R := total_seconds / cst_t.

Definition full_call : ivp_call :=
  {| rhs := derivative;
     t_span := (0, T);
     y0 := initial;
     t_eval := Some (linspace 0 T 100);
     atol := 1e-3;
     rtol := default_rtol;
     method := RK23 |}.

Definition sol : OdeResult := solve_ivp full_call.

(** *** The outputs *)

Definition qfunexp (V : float) (i : nat) : float :=
  interp V (Vapprox i) (Qapprox i).

Definition qoutput : list (list float) :=
  map (fun state =>
         map (fun i => (qfunexp (nth i state NaN) i * #cst_Q)%fl) (seq 0 N))
      (y sol).

(** One entry of [dam_df]: how full the dam of segment [dam] is at the
    state value [x]. *)
Definition dam_fill (dam : nat) (x : float) : float :=
  (of_bool (x >? #(h_l dam)) * min #1 ((x - #(h_l dam)) / (#(h_u dam) - #(h_l dam))))%fl.

Definition dam_df (dams : list nat) : list (list float) :=
  map (fun state => map (fun dam => dam_fill dam (nth dam state NaN)) dams)
      (y sol).

End Relations.

End Model.

End Numerical.

(** ** The hysteresis (height and volume) model *)

Module Hysteresis.

(** *** Inputs and general data handling *)

Definition eval_no : nat := 100.
Definition total_seconds : R := 172800.
Definition cat_lambda (i : nat) : R := 10 * 1.

Section DataHandling.

Variable N : nat.
Variables TONODE FROMNODE : nat -> Z.
Variables Shape_Leng Slope widths : nat -> R.
Variable dams : list nat.
Variables lower_heights upper_heights kvals : list R.

Definition Adj (i j : nat) : R :=
  if (TONODE i =? FROMNODE j)%Z then 1 else 0.

Definition data_l (i : nat) : R := Shape_Leng i.
Definition data_S (i : nat) : R :=
  let s := Slope i * -1 in
  if Rle_dec s 0.01 then 0.01 else s.
Definition data_w (i : nat) : R := widths i.

(** Every segment starts with a dam too high to matter. *)
Definition no_dams : dam_columns :=
  {| col_k := fun _ => 0;
     col_h_l := fun _ => 100 * 1;
     col_h_u := fun _ => 101 * 1 |}.

(** [for i, dam in enumerate(dams)]: the three columns are set at [dam] from
    position [i] of [kvals], [lower_heights] and [upper_heights], in that
    order; a list that has no position [i] raises [IndexError] and ends the
    loop.  The entries of [dams] are segment indices, and an assignment
    through [data_df.k[dam]] writes into the frame. *)
Fixpoint assign (data_df : dam_columns) (i : nat) (ds : list nat)
  : outcome dam_columns :=
  match ds with
  | [] => Returned data_df
  | dam :: ds' =>
      match nth_error kvals i with
      | None => Raised IndexError
      | Some kv =>
          match nth_error lower_heights i with
          | None => Raised IndexError
          | Some lo =>
              match nth_error upper_heights i with
              | None => Raised IndexError
              | Some up =>
                  assign {| col_k := set_at (col_k data_df) dam kv;
                            col_h_l := set_at (col_h_l data_df) dam lo;
                            col_h_u := set_at (col_h_u data_df) dam up |}
                         (S i) ds'
              end
          end
      end
  end.

Definition data_dams : outcome dam_columns := assign no_dams 0 dams.

End DataHandling.

(** *** Nondimensionalising *)

Definition manning : R := 0.035.
Definition cst_w : R := 2.
Definition cst_h : R := 1.
Definition cst_S : R := 0.05.
Definition cst_g : R := 9.8.
Definition cst_l : R := 100.
Definition cst_Q : R := cst_w * Rpower cst_h (5/3) * Rpower cst_S (1/2) / manning.
Definition cst_t : R := cst_l * cst_w * cst_h / cst_Q.
Definition cst_V : R := cst_l * cst_w * cst_h.
Definition cst_alpha : R := cst_h / cst_w.
Definition cst_gamma : R := sqrt (2 * cst_g) * Rpower cst_h (3/2) * cst_w / cst_Q.
Definition cst_beta : R := cst_h / (cst_S * cst_l).

Definition df_l (data_l : nat -> R) (i : nat) : R := data_l i / cst_l.
Definition df_S (data_S : nat -> R) (i : nat) : R := data_S i / cst_S.
Definition df_w (data_w : nat -> R) (i : nat) : R := data_w i / cst_w.
Definition df_h_l (data_h_l : nat -> R) (i : nat) : R := data_h_l i / cst_h.
Definition df_h_u (data_h_u : nat -> R) (i : nat) : R := data_h_u i / cst_h.
Definition df_k (data_k : nat -> R) (i : nat) : R := data_k i.

Section Model.

Variable N : nat.
Variable Adj : nat -> nat -> R.
Variable rainvals : Z -> nat -> R.
Variables l S w h_l h_u k : nat -> R.
Variable root : (float -> float) -> R -> OptimizeResult.
Variable solve_ivp : ivp_call_of (outcome (list float)) -> OdeResult.

Definition rainfun (t : R) : nat -> R :=
  let minutes := t / 60 in
  let i := py_int ((minutes - fmod minutes 15) / 15) in
  rainvals i.

(** *** The critical heights *)

Definition Qfric1 (h : float) (i : nat) : float :=
  (#(w i) * h ** (5/3) * math_sqrt #(S i))%fl.

Definition Qdam1 (h : float) (i : nat) : float :=
  let a1 := (#(h_l i) * h / np_sqrt (h + #(h_l i)))%fl in
  let a2 := (#(k i) * np_sqrt h * min (h - #(h_l i)) (#(h_u i) - #(h_l i)))%fl in
  let a3 := (#(2 / 3) * (max #0 (h - #(h_u i))) ** (3/2))%fl in
  (#cst_gamma * #(w i) * (a1 + a2 + a3))%fl.

Definition fun_ (i : nat) (z : float) : float :=
  let fric := Qfric1 z i in
  let dam := Qdam1 z i in
  (fric - dam)%fl.

Fixpoint hcrit_loop (segments : list nat) (hcrit : list float)
  : outcome (list float) :=
  match segments with
  | [] => Returned hcrit
  | i :: rest =>
      match x (root (fun_ i) (h_u i)) with
      | [] => Raised IndexError
      | x0 :: _ => hcrit_loop rest (hcrit ++ [x0])
      end
  end.

Definition hcrit_build : outcome (list float) := hcrit_loop (seq 0 N) [].

(** *** The flow and storage functions *)

Definition Qfric (h : float) (i : nat) : float :=
  (#(w i) * h ** (5/3) * math_sqrt #(S i))%fl.

Definition Qdam (h : float) (i : nat) : float :=
  let a1 := (#(h_l i) * h / np_sqrt (h + #(h_l i)))%fl in
  let a2 := (#(k i) * np_sqrt h * min (h - #(h_l i)) (#(h_u i) - #(h_l i)))%fl in
  let a3 := (#(0.6 * 2 / 3) * (max #0 (h - #(h_u i))) ** (3/2))%fl in
  (#cst_gamma * #(w i) * (a1 + a2 + a3))%fl.

Section Relations.

Variable hcrit : nat -> float.

(** [Vfun] reads the global name [cst_lambda].  The notebook never binds
    that name (the array it builds from [lambda] is [cat_lambda]), so what
    the name is bound to when [Vfun] runs is a parameter: [None] is the
    notebook as it is committed, run from a fresh kernel, where reading the
    name raises [NameError]; [Some] is a session in which the name has been
    bound by other means. *)
Variable cst_lambda : option (nat -> R).

Definition read_cst_lambda (i : nat) : outcome R :=
  match cst_lambda with
  | Some array => Returned (array i)
  | None => Raised NameError
  end.

(** [Vfun], [fun] and [derivative] are compiled by numba
    ([@jit(nopython=True)]) at their first call.  Compiling a function
    resolves the global names it reads and compiles the functions it calls,
    so the unbound name already stops the first call of [fun] or
    [derivative], whatever the arguments; numba reports the [NameError] in
    a typing error. *)
Definition jit_Vfun : outcome unit :=
  match cst_lambda with
  | Some _ => Returned tt
  | None => Raised NameError
  end.

Definition Qfun (h : float) (i : nat) : float :=
  if (h <? max (hcrit i) #(h_l i))%fl then Qfric h i else Qdam h i.

Definition Vfun (h : float) (i : nat) : outcome float :=
  let hstr := ((Qfun h i / #(w i) / np_sqrt #(S i)) ** (3/5))%fl in
  if (h <? hstr + #(S i * l i / cst_beta))%fl
  then
    cst_lambda_i <- read_cst_lambda i ;;
    Returned (#(w i * l i) * hstr
              + #(cst_lambda_i * 0.5 * cst_beta * w i) * fsqr (max #0 (h - hstr))
                / #(S i))%fl
  else
    cst_lambda_i <- read_cst_lambda i ;;
    Returned (#(w i * l i)
              * (h - #(S i * l i / cst_beta)
                 + #(cst_lambda_i / 2 * S i * l i / cst_beta)))%fl.

(** *** The derivative, for both [h] and [V] *)

(** The loop that fills [Q], the first statement of [fun]. *)
Definition fun_Q (h : list float) : list float :=
  map (fun i => Qfun (nth i h NaN) i) (seq 0 N).

Definition fun_hV (h V q : list float) : outcome (list float) :=
  compiled <- jit_Vfun ;;
  let Q := fun_Q h in
  D1 <- comprehension
          (fun i => v <- Vfun (nth i h NaN) i ;;
                    Returned (#10 * (nth i V NaN - v))%fl)
          (seq 0 N) ;;
  let D2 := vadd (vsub (dotT N Adj Q) Q) q in
  Returned (D1 ++ D2).

Definition derivative (t : R) (X : list float) : outcome (list float) :=
  let h := firstn N X in
  let V := skipn N X in
  let q := map (fun i => fin (rainfun (t * cst_t) i / cst_Q)) (seq 0 N) in
  fun_hV h V q.

(** *** The two integrations *)

Definition T : R := total_seconds / cst_t.

Definition derivative2 (t : R) (X : list float) : outcome (list float) :=
  derivative 0 X.

Definition warmup_call : ivp_call_of (outcome (list float)) :=
  {| rhs := derivative2;
     t_span := (0, 60 * 60 / cst_t);
     y0 := repeat (fin 0) (2 * N);
     t_eval := None;
     atol := 1e-2;
     rtol := 1e-2;
     method := default_method |}.

Definition initial : list float := last_column (solve_ivp warmup_call).

Definition full_call : ivp_call_of (outcome (list float)) :=
  {| rhs := derivative;
     t_span := (0, T);
     y0 := initial;
     t_eval := Some (linspace 0 T eval_no);
     atol := 1e-3;
     rtol := 1e-3;
     method := RK23 |}.

Definition sol : OdeResult := solve_ivp full_call.

(** *** The output *)

Definition qoutput : list (list float) :=
  map (fun state =>
         map (fun i => (Qfun (nth i (firstn N state) NaN) i * #cst_Q)%fl) (seq 0 N))
      (y sol).

End Relations.

End Model.

End Hysteresis.

(** ** Example networks *)

(** Three segments for the numerical model: segments 0 and 1 drain into
    segment 2, which is the outlet; segment 1 carries a dam. *)
Module Example.

Definition N : nat := 3.
Definition TONODE (i : nat) : Z :=
  match i with 0%nat => 3 | 1%nat => 3 | _ => 4 end.
Definition FROMNODE (i : nat) : Z :=
  match i with 0%nat => 1 | 1%nat => 2 | _ => 3 end.
Definition Shape_Leng (i : nat) : R := 100.
Definition Slope (i : nat) : R := -0.2.
Definition widths (i : nat) : R := 32.
Definition dams : list nat := [1%nat].
Definition lower_heights : list R := [0.3].
Definition upper_heights : list R := [2].
Definition kvals : list R := [0].

Definition Adj := Numerical.Adj TONODE FROMNODE.
Definition l := Numerical.df_l (Numerical.data_l Shape_Leng).
Definition S := Numerical.df_S (Numerical.data_S Slope).
Definition w := Numerical.df_w (Numerical.data_w widths).
(** The dam columns that the data handling returns for these lists. *)
Definition data_df : dam_columns :=
  match Numerical.data_dams dams lower_heights upper_heights kvals with
  | Returned columns => columns
  | Raised _ => Numerical.no_dams
  end.
Definition h_l := Numerical.df_h_l (col_h_l data_df).
Definition h_u := Numerical.df_h_u (col_h_u data_df).
Definition k := Numerical.df_k (col_k data_df).

(** No rain, a root search that stops at once without converging, and a
    solver that hands back its initial state. *)
Definition rainvals (i : Z) (seg : nat) : R := 0.
Definition root (f : float -> float) (x0 : R) : OptimizeResult :=
  {| x := [fin x0]; success := false |}.
Definition solve_ivp {Y : Type} (c : ivp_call_of Y) : OdeResult :=
  {| t := [fst (t_span c)]; y := [y0 c] |}.
Definition hcrit (i : nat) : float := fin (h_u i).

End Example.

(** One dammed segment for the hysteresis model, with a root search that
    returns the height 1. *)
Module ExampleH.

Definition N : nat := 1.
Definition TONODE (i : nat) : Z := 2.
Definition FROMNODE (i : nat) : Z := 1.
Definition Shape_Leng (i : nat) : R := 100.
Definition Slope (i : nat) : R := - ((8477 / 24000) ^ 2 / 10).
Definition widths (i : nat) : R := 2.
Definition dams : list nat := [0%nat].
Definition lower_heights : list R := [9 / 16].
Definition upper_heights : list R := [3 / 4].
Definition kvals : list R := [1].

Definition Adj := Hysteresis.Adj TONODE FROMNODE.
Definition l := Hysteresis.df_l (Hysteresis.data_l Shape_Leng).
Definition S := Hysteresis.df_S (Hysteresis.data_S Slope).
Definition w := Hysteresis.df_w (Hysteresis.data_w widths).
(** The dam columns that the data handling returns for these lists. *)
Definition data_df : dam_columns :=
  match Hysteresis.data_dams dams lower_heights upper_heights kvals with
  | Returned columns => columns
  | Raised _ => Hysteresis.no_dams
  end.
Definition h_l := Hysteresis.df_h_l (col_h_l data_df).
Definition h_u := Hysteresis.df_h_u (col_h_u data_df).
Definition k := Hysteresis.df_k (col_k data_df).

Definition rainvals (i : Z) (seg : nat) : R := 0.
Definition root (f : float -> float) (x0 : R) : OptimizeResult :=
  {| x := [fin 1]; success := true |}.
Definition solve_ivp {Y : Type} (c : ivp_call_of Y) : OdeResult :=
  {| t := [fst (t_span c)]; y := [y0 c] |}.
Definition hcrit (i : nat) : float := fin 1.

End ExampleH.

(** ** Notions used in the statements *)

(** A table of abscissas as [np.interp] needs it: numbers, in non-decreasing
    order. *)
Definition table_sorted (xp : list float) : Prop :=
  forall j j', (j <= j')%nat -> (j' < length xp)%nat ->
    exists a b, nth j xp NaN = Some a /\ nth j' xp NaN = Some b /\ a <= b.

(** The sum of a list of reals. *)
Definition rsum (xs : list R) : R := fold_right Rplus 0 xs.

(** The outlets of a network are the segments whose row of the adjacency
    matrix is all zero; their total discharge. *)
Definition row_is_zero (n : nat) (A : nat -> nat -> R) (i : nat) : bool :=
  forallb (fun j => if Req_dec_T (A i j) 0 then true else false) (seq 0 n).

Definition outlet_discharge (n : nat) (A : nat -> nat -> R) (Qs : list R) : R :=
  rsum (map (fun i => if row_is_zero n A i then nth i Qs 0 else 0) (seq 0 n)).

(** The balance of the network on real vectors: what segment [j] receives
    from upstream, minus what it discharges, plus its inflow. *)
Definition network_balance (n : nat) (A : nat -> nat -> R) (Qs qs : list R)
  : list R :=
  map (fun j => rsum (map (fun i => A i j * nth i Qs 0) (seq 0 n))
                - nth j Qs 0 + nth j qs 0) (seq 0 n).

(** * Properties *)

(** ** Arithmetic on finite floats *)

Lemma flt_true (a b : R) : a < b -> flt (Some a) (Some b) = true.
Proof. intros H. unfold flt. destruct (Rlt_dec a b); [reflexivity | contradiction]. Qed.

Lemma flt_false (a b : R) : b <= a -> flt (Some a) (Some b) = false.
Proof. intros H. unfold flt. destruct (Rlt_dec a b); [lra | reflexivity]. Qed.

Lemma flt_inv (a b : float) :
  flt a b = true -> exists x y, a = Some x /\ b = Some y /\ x < y.
Proof.
  destruct a as [x|], b as [y|]; simpl; try discriminate.
  destruct (Rlt_dec x y); [|discriminate]. intros _. now exists x, y.
Qed.

Lemma fge_true (a b : R) : b <= a -> fge (Some a) (Some b) = true.
Proof. intros H. unfold fge. destruct (Rle_dec b a); [reflexivity | contradiction]. Qed.

Lemma fge_false (a b : R) : a < b -> fge (Some a) (Some b) = false.
Proof. intros H. unfold fge. destruct (Rle_dec b a); [lra | reflexivity]. Qed.

Lemma feq_true (a b : R) : a = b -> feq (Some a) (Some b) = true.
Proof. intros H. unfold feq. destruct (Req_dec_T a b); [reflexivity | contradiction]. Qed.

Lemma feq_false (a b : R) : a <> b -> feq (Some a) (Some b) = false.
Proof. intros H. unfold feq. destruct (Req_dec_T a b); [contradiction | reflexivity]. Qed.

Lemma fdiv_fin (a b : R) : b <> 0 -> fdiv (Some a) (Some b) = Some (a / b).
Proof. intros H. unfold fdiv. destruct (Req_dec_T b 0); [contradiction | reflexivity]. Qed.

Lemma np_sqrt_fin (a : R) : 0 <= a -> np_sqrt (Some a) = Some (sqrt a).
Proof. intros H. unfold np_sqrt. destruct (Rlt_dec a 0); [lra | reflexivity]. Qed.


Lemma rpow_pos (a y : R) : 0 < a -> rpow a y = Rpower a y.
Proof. intros H. unfold rpow. destruct (Req_dec_T a 0); [lra | reflexivity]. Qed.

Lemma rpow_zero (y : R) : rpow 0 y = 0.
Proof. unfold rpow. destruct (Req_dec_T 0 0); [reflexivity | contradiction]. Qed.

Lemma rpow_nonneg (a y : R) : 0 <= rpow a y.
Proof.
  unfold rpow. destruct (Req_dec_T a 0); [lra|].
  unfold Rpower. left. apply exp_pos.
Qed.

Lemma rpow_one (y : R) : rpow 1 y = 1.
Proof.
  rewrite rpow_pos by lra. unfold Rpower. rewrite ln_1, Rmult_0_r. apply exp_0.
Qed.

Lemma rpow_le (x y c : R) : 0 <= x <= y -> 0 <= c -> rpow x c <= rpow y c.
Proof.
  intros [Hx Hxy] Hc. destruct (Req_dec_T x 0) as [->|Hne].
  - rewrite rpow_zero. apply rpow_nonneg.
  - rewrite !rpow_pos by lra. apply Rle_Rpower_l; lra.
Qed.

(** Raising to [y] and then to [z] with [y * z = 1] gives the base back. *)
Lemma rpow_inverse (a y z : R) : 0 <= a -> y * z = 1 -> rpow (rpow a y) z = a.
Proof.
  intros Ha Hyz. destruct (Req_dec_T a 0) as [->|Hne].
  - now rewrite !rpow_zero.
  - rewrite (rpow_pos a) by lra.
    rewrite rpow_pos by (unfold Rpower; apply exp_pos).
    rewrite Rpower_mult, Hyz. apply Rpower_1. lra.
Qed.

Lemma fpow_fin (a y : R) : 0 <= a -> fpow (Some a) y = Some (rpow a y).
Proof. intros H. unfold fpow. destruct (Rlt_dec a 0); [lra | reflexivity]. Qed.


Lemma max_fin (a b : R) : max (Some a) (Some b) = Some (Rmax a b).
Proof.
  unfold max, fgt, flt. destruct (Rlt_dec a b) as [H|H].
  - now rewrite Rmax_right by lra.
  - now rewrite Rmax_left by lra.
Qed.

Lemma min_fin (a b : R) : min (Some a) (Some b) = Some (Rmin a b).
Proof.
  unfold min, flt. destruct (Rlt_dec b a) as [H|H].
  - now rewrite Rmin_right by lra.
  - now rewrite Rmin_left by lra.
Qed.

Lemma max_fin_l (r : R) (v : float) :
  exists r', max (Some r) v = Some r' /\ r <= r'.
Proof.
  destruct v as [x|].
  - rewrite max_fin. exists (Rmax r x). split; [reflexivity | apply Rmax_l].
  - exists r. split; [reflexivity | lra].
Qed.

(** ** The storage table is monotone *)

Lemma running_max_length (vs : list float) :
  forall r, length (Numerical.running_max r vs) = length vs.
Proof.
  induction vs as [|v vs IH]; intros r; simpl; [reflexivity|].
  now rewrite IH.
Qed.

Lemma running_max_lower (vs : list float) :
  forall r j, (j < length vs)%nat ->
    exists x, nth j (Numerical.running_max (Some r) vs) NaN = Some x /\ r <= x.
Proof.
  induction vs as [|v vs IH]; intros r j Hj; simpl in *; [lia|].
  destruct (max_fin_l r v) as [r' [Hr' Hle]]. rewrite Hr'.
  destruct j as [|j].
  - exists r'. split; [reflexivity | exact Hle].
  - destruct (IH r' j) as [x [Hx Hrx]]; [lia|].
    exists x. split; [exact Hx | lra].
Qed.

Lemma running_max_mono (vs : list float) :
  forall r j j', (j <= j')%nat -> (j' < length vs)%nat ->
    exists x y,
      nth j (Numerical.running_max (Some r) vs) NaN = Some x /\
      nth j' (Numerical.running_max (Some r) vs) NaN = Some y /\ x <= y.
Proof.
  induction vs as [|v vs IH]; intros r j j' Hjj Hj'; simpl in *; [lia|].
  destruct (max_fin_l r v) as [r' [Hr' Hle]]. rewrite Hr'.
  destruct j as [|j]; destruct j' as [|j']; try lia.
  - exists r', r'. repeat split; lra.
  - destruct (running_max_lower vs r' j') as [y [Hy Hry]]; [lia|].
    exists r', y. repeat split; assumption.
  - apply IH; lia.
Qed.

Lemma running_max_attained (vs : list float) :
  forall r j, (j < length vs)%nat ->
    exists x,
      nth j (Numerical.running_max (Some r) vs) NaN = Some x /\
      r <= x /\
      (forall v, nth j vs NaN = Some v -> v <= x) /\
      (x = r \/ exists j', (j' <= j)%nat /\ nth j' vs NaN = Some x).
Proof.
  induction vs as [|v vs IH]; intros r j Hj; simpl in Hj; [lia|].
  cbn [Numerical.running_max]. cbv zeta.
  destruct j as [|j].
  - cbn [nth]. destruct v as [v|].
    + rewrite max_fin. exists (Rmax r v). split; [reflexivity|].
      split; [apply Rmax_l|]. split.
      * intros v' Hv'. injection Hv' as <-. apply Rmax_r.
      * unfold Rmax. destruct (Rle_dec r v); [right | now left].
        exists 0%nat. split; [lia | reflexivity].
    + exists r. unfold max. cbn. split; [reflexivity|].
      split; [lra|]. split; [intros v' Hv'; discriminate | now left].
  - cbn [nth].
    destruct (max_fin_l r v) as [r' [Hr' Hrr']]. rewrite Hr'.
    destruct (IH r' j ltac:(lia)) as [x [Hx [Hr'x [Hdom Hatt]]]].
    exists x. split; [exact Hx|]. split; [lra|]. split; [exact Hdom|].
    destruct Hatt as [->|[j' [Hj' Hatt]]].
    + destruct v as [v|].
      * rewrite max_fin in Hr'. injection Hr' as <-.
        unfold Rmax. destruct (Rle_dec r v); [right | now left].
        exists 0%nat. split; [lia | reflexivity].
      * unfold max in Hr'. cbn in Hr'. injection Hr' as <-. now left.
    + right. exists (S j'). split; [lia | exact Hatt].
Qed.

Lemma linspace_length (a b : R) (n : nat) : length (linspace a b n) = n.
Proof. unfold linspace. now rewrite length_map, length_seq. Qed.

Lemma linspace_nth (a b : R) (n j : nat) :
  (j < n)%nat ->
  nth j (linspace a b n) 0 = a + INR j * ((b - a) / INR (n - 1)).
Proof.
  intros Hj. unfold linspace.
  rewrite (nth_indep _ 0 ((fun j => a + INR j * ((b - a) / INR (n - 1))) 0%nat))
    by (now rewrite length_map, length_seq).
  rewrite (map_nth (fun j => a + INR j * ((b - a) / INR (n - 1)))).
  now rewrite seq_nth by assumption.
Qed.

Lemma grid_nth (j : nat) : (j < 100)%nat -> nth j Numerical.grid 0 = INR j * (20 / 99).
Proof.
  intros Hj. unfold Numerical.grid. rewrite linspace_nth by assumption.
  replace (INR (100 - 1)) with 99.
  - lra.
  - change (100 - 1)%nat with 99%nat. rewrite INR_IZR_INZ. reflexivity.
Qed.

Lemma grid_le_index (j j' : nat) :
  (j < 100)%nat -> (j' < 100)%nat ->
  nth j Numerical.grid 0 <= nth j' Numerical.grid 0 -> (j <= j')%nat.
Proof.
  intros Hj Hj' Hle. rewrite !grid_nth in Hle by assumption.
  apply INR_le. lra.
Qed.

(** C3: along the fixed grid of 100 heights from 0 to 20, the tabulated
    storage of every segment is non-decreasing: whenever the grid height of
    sample [j] is at most that of sample [j'], the table entry at [j] is a
    number that is at most the table entry at [j']. *)
Theorem Vapprox_monotone (l S w h_l h_u k : nat -> R) (hcrit : nat -> float)
    (i j j' : nat) :
  (j < 100)%nat -> (j' < 100)%nat ->
  nth j Numerical.grid 0 <= nth j' Numerical.grid 0 ->
  exists x y,
    nth j (Numerical.Vapprox l S w h_l h_u k hcrit i) NaN = Some x /\
    nth j' (Numerical.Vapprox l S w h_l h_u k hcrit i) NaN = Some y /\
    x <= y.
Proof.
  intros Hj Hj' Hle. unfold Numerical.Vapprox.
  apply running_max_mono.
  - now apply grid_le_index.
  - rewrite length_map. unfold Numerical.grid. now rewrite linspace_length.
Qed.

Lemma Vapprox_monotone_witness :
  exists x y,
    nth 0 (Numerical.Vapprox Example.l Example.S Example.w Example.h_l
             Example.h_u Example.k Example.hcrit 0) NaN = Some x /\
    nth 1 (Numerical.Vapprox Example.l Example.S Example.w Example.h_l
             Example.h_u Example.k Example.hcrit 0) NaN = Some y /\
    x <= y.
Proof.
  apply (Vapprox_monotone Example.l Example.S Example.w Example.h_l
           Example.h_u Example.k Example.hcrit 0 0 1); [lia | lia |].
  rewrite !grid_nth by lia. simpl. lra.
Defined.

(** ** The dam fill fraction *)

Lemma dam_fill_cases (h_l h_u : nat -> R) (dam : nat) (x : float) :
  h_l dam < h_u dam ->
  exists r,
    Numerical.dam_fill h_l h_u dam x = Some r /\
    0 <= r <= 1 /\
    (forall v, x = Some v -> v <= h_l dam -> r = 0) /\
    (forall v, x = Some v -> h_l dam < v ->
       r = Rmin 1 ((v - h_l dam) / (h_u dam - h_l dam))).
Proof.
  intros Hlu. unfold Numerical.dam_fill.
  destruct x as [v|].
  - change (Some v - #(h_l dam))%fl with (Some (v - h_l dam)).
    change (#(h_u dam) - #(h_l dam))%fl with (Some (h_u dam - h_l dam)).
    rewrite fdiv_fin by lra.
    unfold fin at 2. rewrite min_fin.
    unfold fgt, fin.
    destruct (Rlt_dec (h_l dam) v) as [Hgt|Hle].
    + rewrite flt_true by assumption. simpl.
      exists (1 * Rmin 1 ((v - h_l dam) / (h_u dam - h_l dam))).
      assert (Hpos : 0 < (v - h_l dam) / (h_u dam - h_l dam)).
      { apply Rdiv_lt_0_compat; lra. }
      assert (Hmin : 0 < Rmin 1 ((v - h_l dam) / (h_u dam - h_l dam)) <= 1).
      { split; [apply Rmin_glb_lt; lra | apply Rmin_l]. }
      repeat split; try lra.
      * intros v' Hv' Hv'le. injection Hv' as <-. lra.
      * intros v' Hv' _. injection Hv' as <-. lra.
    + rewrite flt_false by lra. simpl.
      exists (0 * Rmin 1 ((v - h_l dam) / (h_u dam - h_l dam))).
      repeat split; try lra.
      * intros v' Hv' _. lra.
      * intros v' Hv' Hv'gt. injection Hv' as <-. lra.
  - exists (0 * 1). simpl. unfold min. simpl.
    repeat split; try lra; intros v' Hv'; discriminate.
Qed.

(** C9: every entry of the dam fill table of a dam with [h_l < h_u] is a
    number between 0 and 1: it is 0 when the state value is at or below
    [h_l] and [min(1, (x - h_l) / (h_u - h_l))] above it. *)
Theorem dam_df_unit_interval
    (N : nat) (Adj : nat -> nat -> R) (rainvals : Z -> nat -> R)
    (l S w h_l h_u k : nat -> R) (solve_ivp : ivp_call -> OdeResult)
    (hcrit : nat -> float) (dams : list nat) (n p : nat) :
  (n < length (y (Numerical.sol N Adj rainvals l S w h_l h_u k solve_ivp hcrit)))%nat ->
  (p < length dams)%nat ->
  h_l (nth p dams 0%nat) < h_u (nth p dams 0%nat) ->
  let dam := nth p dams 0%nat in
  let state := nth n (y (Numerical.sol N Adj rainvals l S w h_l h_u k solve_ivp hcrit)) [] in
  let x := nth dam state NaN in
  exists r,
    nth p (nth n (Numerical.dam_df N Adj rainvals l S w h_l h_u k solve_ivp hcrit dams) []) NaN
      = Some r /\
    0 <= r <= 1 /\
    (forall v, x = Some v -> v <= h_l dam -> r = 0) /\
    (forall v, x = Some v -> h_l dam < v ->
       r = Rmin 1 ((v - h_l dam) / (h_u dam - h_l dam))).
Proof.
  intros Hn Hp Hlu dam state x. unfold Numerical.dam_df.
  set (f := fun st : list float =>
              map (fun d => Numerical.dam_fill h_l h_u d (nth d st NaN)) dams).
  rewrite (nth_indep _ [] (f [])) by (now rewrite length_map).
  rewrite (map_nth f). unfold f.
  set (g := fun d => Numerical.dam_fill h_l h_u d (nth d _ NaN)).
  rewrite (nth_indep _ NaN (g 0%nat)) by (now rewrite length_map).
  rewrite (map_nth g). unfold g.
  apply dam_fill_cases. exact Hlu.
Qed.

Lemma Example_h_l_dam : Example.h_l 1%nat = 0.3.
Proof.
  unfold Example.h_l, Numerical.df_h_l, Example.data_df, Numerical.cst_h.
  simpl. unfold set_at. simpl. lra.
Qed.

Lemma Example_h_u_dam : Example.h_u 1%nat = 2.
Proof.
  unfold Example.h_u, Numerical.df_h_u, Example.data_df, Numerical.cst_h.
  simpl. unfold set_at. simpl. lra.
Qed.

Lemma dam_df_unit_interval_witness :
  exists r,
    nth 0 (nth 0 (Numerical.dam_df Example.N Example.Adj Example.rainvals
                    Example.l Example.S Example.w Example.h_l Example.h_u
                    Example.k Example.solve_ivp Example.hcrit Example.dams) [])
        NaN = Some r /\
    0 <= r <= 1.
Proof.
  destruct (dam_df_unit_interval Example.N Example.Adj Example.rainvals
              Example.l Example.S Example.w Example.h_l Example.h_u
              Example.k Example.solve_ivp Example.hcrit Example.dams 0 0)
    as [r [Hr [Hb _]]].
  - simpl. lia.
  - simpl. lia.
  - simpl. rewrite Example_h_l_dam, Example_h_u_dam. lra.
  - exists r. split; assumption.
Defined.

(** ** The integration methods *)

(** C2: the full run of the hysteresis model is integrated with the explicit
    Runge-Kutta pair RK23, which is not one of the implicit methods; the full
    run of the numerical model is integrated with RK23 as well. *)
Theorem full_run_methods
    (N : nat) (Adj : nat -> nat -> R) (rainvals : Z -> nat -> R)
    (l S w h_l h_u k : nat -> R)
    (solve_ivp : ivp_call -> OdeResult)
    (solve_ivp_h : ivp_call_of (outcome (list float)) -> OdeResult)
    (hcrit : nat -> float) (cst_lambda : option (nat -> R)) :
  method (Hysteresis.full_call N Adj rainvals l S w h_l h_u k solve_ivp_h hcrit
            cst_lambda) = RK23 /\
  implicit (method (Hysteresis.full_call N Adj rainvals l S w h_l h_u k solve_ivp_h
                      hcrit cst_lambda))
    = false /\
  method (Numerical.full_call N Adj rainvals l S w h_l h_u k solve_ivp hcrit) = RK23.
Proof. repeat split. Qed.

(** ** The critical heights *)

Section CriticalHeights.

Variable N : nat.
Variables S w h_l h_u k : nat -> R.
Variable root : (float -> float) -> R -> OptimizeResult.

Let first_iterate (f : nat -> float -> float) (i : nat) : float :=
  hd NaN (x (root (f i) (h_u i))).

Lemma numerical_hcrit_loop (segments : list nat) :
  forall hcrit,
    (forall i, In i segments -> x (root (Numerical.fun_ S w h_l h_u k i) (h_u i)) <> []) ->
    Numerical.hcrit_loop S w h_l h_u k root segments hcrit
    = Returned (hcrit ++ map (first_iterate (Numerical.fun_ S w h_l h_u k)) segments).
Proof.
  induction segments as [|i rest IH]; intros hcrit Hx; simpl.
  - now rewrite app_nil_r.
  - unfold first_iterate at 1.
    destruct (x (root (Numerical.fun_ S w h_l h_u k i) (h_u i))) as [|x0 xs] eqn:E.
    + exfalso. apply (Hx i); [now left | exact E].
    + rewrite IH by (intros j Hj; apply Hx; now right).
      now rewrite <- app_assoc.
Qed.

Lemma hysteresis_hcrit_loop (segments : list nat) :
  forall hcrit,
    (forall i, In i segments -> x (root (Hysteresis.fun_ S w h_l h_u k i) (h_u i)) <> []) ->
    Hysteresis.hcrit_loop S w h_l h_u k root segments hcrit
    = Returned (hcrit ++ map (first_iterate (Hysteresis.fun_ S w h_l h_u k)) segments).
Proof.
  induction segments as [|i rest IH]; intros hcrit Hx; simpl.
  - now rewrite app_nil_r.
  - unfold first_iterate at 1.
    destruct (x (root (Hysteresis.fun_ S w h_l h_u k i) (h_u i))) as [|x0 xs] eqn:E.
    + exfalso. apply (Hx i); [now left | exact E].
    + rewrite IH by (intros j Hj; apply Hx; now right).
      now rewrite <- app_assoc.
Qed.

End CriticalHeights.

(** C7, as the notebooks have it: whatever the root search reports in
    [success], the construction of the critical heights returns, for every
    segment, the first component of the final iterate of the search seeded
    at [h_u]; the flag is not read and nothing is raised for a search that
    did not converge. *)
Theorem hcrit_build_keeps_iterate
    (N : nat) (S w h_l h_u k : nat -> R)
    (root : (float -> float) -> R -> OptimizeResult) :
  (forall i f, (i < N)%nat -> x (root f (h_u i)) <> []) ->
  Numerical.hcrit_build N S w h_l h_u k root
  = Returned (map (fun i => hd NaN (x (root (Numerical.fun_ S w h_l h_u k i) (h_u i))))
                  (seq 0 N)) /\
  Hysteresis.hcrit_build N S w h_l h_u k root
  = Returned (map (fun i => hd NaN (x (root (Hysteresis.fun_ S w h_l h_u k i) (h_u i))))
                  (seq 0 N)).
Proof.
  intros Hx. unfold Numerical.hcrit_build, Hysteresis.hcrit_build. split.
  - rewrite numerical_hcrit_loop; [reflexivity|].
    intros i Hi. apply Hx. apply in_seq in Hi. lia.
  - rewrite hysteresis_hcrit_loop; [reflexivity|].
    intros i Hi. apply Hx. apply in_seq in Hi. lia.
Qed.

Lemma hcrit_build_keeps_iterate_witness :
  success (Example.root (Numerical.fun_ Example.S Example.w Example.h_l
                           Example.h_u Example.k 0) (Example.h_u 0)) = false /\
  Numerical.hcrit_build Example.N Example.S Example.w Example.h_l Example.h_u
    Example.k Example.root
  = Returned [fin (Example.h_u 0); fin (Example.h_u 1); fin (Example.h_u 2)] /\
  Hysteresis.hcrit_build Example.N Example.S Example.w Example.h_l Example.h_u
    Example.k Example.root
  = Returned [fin (Example.h_u 0); fin (Example.h_u 1); fin (Example.h_u 2)].
Proof.
  split; [reflexivity|].
  apply (hcrit_build_keeps_iterate Example.N Example.S Example.w
           Example.h_l Example.h_u Example.k Example.root).
  intros i f _. discriminate.
Defined.

Lemma hcrit_build_not_loud :
  success (Example.root (Numerical.fun_ Example.S Example.w Example.h_l
                           Example.h_u Example.k 0) (Example.h_u 0)) = false /\
  success (Example.root (Hysteresis.fun_ Example.S Example.w Example.h_l
                           Example.h_u Example.k 0) (Example.h_u 0)) = false /\
  (forall e, Numerical.hcrit_build Example.N Example.S Example.w Example.h_l
               Example.h_u Example.k Example.root <> Raised e) /\
  (forall e, Hysteresis.hcrit_build Example.N Example.S Example.w Example.h_l
               Example.h_u Example.k Example.root <> Raised e).
Proof.
  repeat split; intros e; discriminate.
Qed.

(** ** The two-phase integration *)






(** With the name [cst_lambda] unbound, [Vfun] raises at every height, and
    so does the right-hand side of a network with at least one segment. *)
Lemma hysteresis_Vfun_unbound
    (l S w h_l h_u k : nat -> R) (hcrit : nat -> float) (h : float) (i : nat) :
  Hysteresis.Vfun l S w h_l h_u k hcrit None h i = Raised NameError.
Proof.
  unfold Hysteresis.Vfun. cbv zeta.
  destruct (flt h _); reflexivity.
Qed.

Lemma hysteresis_fun_unbound
    (N : nat) (Adj : nat -> nat -> R) (l S w h_l h_u k : nat -> R)
    (hcrit : nat -> float) (h V q : list float) :
  Hysteresis.fun_hV N Adj l S w h_l h_u k hcrit None h V q = Raised NameError.
Proof. reflexivity. Qed.



(** ** Interpolation in a sorted table *)

Lemma skipn_cons_nth {A : Type} (d : A) (xs : list A) :
  forall i, (i < length xs)%nat -> skipn i xs = nth i xs d :: skipn (S i) xs.
Proof.
  induction xs as [|a xs IH]; intros i Hi; simpl in Hi; [lia|].
  destruct i as [|i]; [reflexivity|].
  simpl. apply IH. lia.
Qed.

Lemma scan_from (key : R) (xp : list float) (j : nat) (a : R) :
  table_sorted xp ->
  (j < length xp)%nat ->
  nth j xp NaN = Some a -> a <= key ->
  ((j + 1 < length xp)%nat -> exists b, nth (j + 1) xp NaN = Some b /\ key < b) ->
  forall d i, (j + 1 - i = d)%nat -> (1 <= i <= j + 1)%nat ->
    scan (Some key) (skipn i xp) i = (j + 1)%nat.
Proof.
  intros Hs Hj Ha Hak Hnext. induction d as [|d IH]; intros i Hd Hi.
  - assert (i = j + 1)%nat as -> by lia.
    destruct (Nat.lt_ge_cases (j + 1) (length xp)) as [Hlt|Hge].
    + rewrite (skipn_cons_nth NaN) by assumption.
      destruct (Hnext Hlt) as [b [Hb Hkb]]. rewrite Hb. cbn [scan].
      now rewrite fge_false.
    + rewrite skipn_all2 by assumption. reflexivity.
  - rewrite (skipn_cons_nth NaN) by lia.
    destruct (Hs i j) as [c [a' [Hc [Ha' Hca]]]]; [lia | assumption |].
    rewrite Ha in Ha'. injection Ha' as <-.
    rewrite Hc. cbn [scan]. rewrite fge_true by lra.
    apply IH; lia.
Qed.

Lemma scan_locate (key : R) (xp : list float) (j : nat) (a : R) :
  table_sorted xp ->
  (j < length xp)%nat ->
  nth j xp NaN = Some a -> a <= key ->
  ((j + 1 < length xp)%nat -> exists b, nth (j + 1) xp NaN = Some b /\ key < b) ->
  (scan (Some key) (tl xp) 1 - 1)%nat = j.
Proof.
  intros Hs Hj Ha Hak Hnext.
  replace (tl xp) with (skipn 1 xp) by (now destruct xp).
  rewrite (scan_from key xp j a Hs Hj Ha Hak Hnext j 1%nat); lia.
Qed.

Lemma interp_right (x : float) (xp fp : list float) :
  fgt x (nth (length xp - 1) xp NaN) = true ->
  interp x xp fp = nth (length xp - 1) fp NaN.
Proof.
  intros H. unfold interp.
  destruct x as [v|]; [|destruct (nth (length xp - 1) xp NaN); discriminate].
  simpl isnan. cbv iota. cbv zeta. now rewrite H.
Qed.

Lemma interp_left (x : float) (xp fp : list float) :
  flt x (nth 0 xp NaN) = true ->
  fgt x (nth (length xp - 1) xp NaN) = false ->
  interp x xp fp = nth 0 fp NaN.
Proof.
  intros Hl Hr. unfold interp.
  destruct x as [v|]; [|discriminate].
  simpl isnan. cbv iota. cbv zeta. now rewrite Hr, Hl.
Qed.

Lemma sorted_inside (v : R) (xp : list float) (j : nat) (a : R) :
  table_sorted xp -> (j < length xp)%nat ->
  nth j xp NaN = Some a -> a <= v ->
  ((j + 1 < length xp)%nat -> exists b, nth (j + 1) xp NaN = Some b /\ v < b) ->
  ((j + 1 < length xp)%nat \/ v = a) ->
  fgt (Some v) (nth (length xp - 1) xp NaN) = false /\
  flt (Some v) (nth 0 xp NaN) = false.
Proof.
  intros Hs Hj Ha Hav Hnext Hlast. split.
  - destruct (Nat.lt_ge_cases (j + 1) (length xp)) as [Hlt|Hge].
    + destruct (Hnext Hlt) as [b [Hb Hvb]].
      destruct (Hs (j + 1)%nat (length xp - 1)%nat) as [b' [c [Hb' [Hc Hbc]]]]; [lia | lia |].
      rewrite Hb in Hb'. injection Hb' as <-.
      rewrite Hc. unfold fgt. apply flt_false. lra.
    + destruct Hlast as [Hlt| ->]; [lia|].
      replace (length xp - 1)%nat with j by lia.
      rewrite Ha. unfold fgt. apply flt_false. lra.
  - destruct (Hs 0%nat j) as [c [a' [Hc [Ha' Hca]]]]; [lia | assumption |].
    rewrite Ha in Ha'. injection Ha' as <-.
    rewrite Hc. apply flt_false. lra.
Qed.

(** At a node of the table below which no later abscissa lies, the
    interpolant is the tabulated value. *)
Lemma interp_node (xp fp : list float) (j : nat) (a : R) :
  table_sorted xp -> (j < length xp)%nat ->
  nth j xp NaN = Some a ->
  ((j + 1 < length xp)%nat -> exists b, nth (j + 1) xp NaN = Some b /\ a < b) ->
  interp (Some a) xp fp = nth j fp NaN.
Proof.
  intros Hs Hj Ha Hnext.
  destruct (sorted_inside a xp j a Hs Hj Ha (Rle_refl a) Hnext) as [Hr Hl];
    [now right|].
  unfold interp. simpl isnan. cbv iota. cbv zeta. rewrite Hr, Hl.
  rewrite (scan_locate a xp j a Hs Hj Ha (Rle_refl a) Hnext).
  destruct (j =? length xp - 1)%nat; [reflexivity|].
  rewrite Ha. now rewrite feq_true.
Qed.

(** Strictly inside a cell of the table, the interpolant is the chord. *)
Lemma interp_cell (xp fp : list float) (j : nat) (a b p q v : R) :
  table_sorted xp -> (j + 1 < length xp)%nat ->
  nth j xp NaN = Some a -> nth (j + 1) xp NaN = Some b ->
  nth j fp NaN = Some p -> nth (j + 1) fp NaN = Some q ->
  a < v < b ->
  interp (Some v) xp fp = Some ((q - p) / (b - a) * (v - a) + p).
Proof.
  intros Hs Hj Ha Hb Hp Hq [Hav Hvb].
  assert (Hnext : (j + 1 < length xp)%nat ->
                  exists b', nth (j + 1) xp NaN = Some b' /\ v < b').
  { intros _. now exists b. }
  destruct (sorted_inside v xp j a Hs ltac:(lia) Ha ltac:(lra) Hnext) as [Hr Hl];
    [now left|].
  unfold interp. simpl isnan. cbv iota. cbv zeta. rewrite Hr, Hl.
  rewrite (scan_locate v xp j a Hs ltac:(lia) Ha ltac:(lra) Hnext).
  replace (j =? length xp - 1)%nat with false by (symmetry; apply Nat.eqb_neq; lia).
  rewrite Ha, Hb, Hp, Hq. rewrite feq_false by lra.
  simpl fsub. rewrite fdiv_fin by lra. reflexivity.
Qed.

(** ** The tables of the numerical model *)

Section NumericalTables.

Variable N : nat.
Variables l S w h_l h_u k : nat -> R.
Variable hcrit : nat -> float.

Let Vapprox := Numerical.Vapprox l S w h_l h_u k hcrit.
Let Qapprox := Numerical.Qapprox S w h_l h_u k hcrit.
Let Qfun := Numerical.Qfun S w h_l h_u k hcrit.
Let Vfun := Numerical.Vfun l S w h_l h_u k hcrit.

Lemma grid_length : length Numerical.grid = 100%nat.
Proof. apply linspace_length. Qed.

Lemma Vapprox_length (i : nat) : length (Vapprox i) = 100%nat.
Proof.
  unfold Vapprox, Numerical.Vapprox.
  now rewrite running_max_length, length_map, grid_length.
Qed.

Lemma Qapprox_length (i : nat) : length (Qapprox i) = 100%nat.
Proof.
  unfold Qapprox, Numerical.Qapprox. now rewrite length_map, grid_length.
Qed.

Lemma Vapprox_sorted (i : nat) : table_sorted (Vapprox i).
Proof.
  intros j j' Hjj Hj'. rewrite Vapprox_length in Hj'.
  unfold Vapprox, Numerical.Vapprox. apply running_max_mono; [assumption|].
  now rewrite length_map, grid_length.
Qed.

Lemma Qapprox_nth (i j : nat) :
  (j < 100)%nat -> nth j (Qapprox i) NaN = Qfun (Some (nth j Numerical.grid 0)) i.
Proof.
  intros Hj. unfold Qapprox, Numerical.Qapprox.
  set (f := fun h : R => Numerical.Qfun S w h_l h_u k hcrit #h i).
  rewrite (nth_indep _ NaN (f 0)) by (now rewrite length_map, grid_length).
  now rewrite (map_nth f).
Qed.

Lemma Qvals_nth (V : list float) (i : nat) :
  (i < N)%nat ->
  nth i (Numerical.Qvals N l S w h_l h_u k hcrit V) NaN
  = interp (nth i V NaN) (Vapprox i) (Qapprox i).
Proof.
  intros Hi. unfold Numerical.Qvals.
  set (f := fun i => interp (nth i V NaN) _ _).
  rewrite (nth_indep _ NaN (f 0%nat)) by (now rewrite length_map, length_seq).
  rewrite (map_nth f). now rewrite seq_nth.
Qed.

End NumericalTables.

(** C5: the volume-to-discharge lookup of the right-hand side is flat
    outside the table: for a volume below the first tabulated volume of the
    segment it returns the first tabulated discharge, and for a volume above
    the last tabulated volume (index 99, the last of the 100) the last
    tabulated discharge. *)
Theorem Qvals_clamps
    (N : nat) (l S w h_l h_u k : nat -> R) (hcrit : nat -> float)
    (V : list float) (i : nat) :
  (i < N)%nat ->
  (flt (nth i V NaN) (nth 0 (Numerical.Vapprox l S w h_l h_u k hcrit i) NaN) = true ->
   nth i (Numerical.Qvals N l S w h_l h_u k hcrit V) NaN
   = nth 0 (Numerical.Qapprox S w h_l h_u k hcrit i) NaN) /\
  (fgt (nth i V NaN) (nth 99 (Numerical.Vapprox l S w h_l h_u k hcrit i) NaN) = true ->
   nth i (Numerical.Qvals N l S w h_l h_u k hcrit V) NaN
   = nth 99 (Numerical.Qapprox S w h_l h_u k hcrit i) NaN).
Proof.
  intros Hi. rewrite Qvals_nth by assumption.
  pose proof (Vapprox_length l S w h_l h_u k hcrit i) as Hlen.
  split; intros H.
  - apply interp_left; [assumption|]. rewrite Hlen. simpl Nat.sub.
    destruct (flt_inv _ _ H) as [v [v0 [Hv [Hv0 Hlt]]]].
    destruct (Vapprox_sorted l S w h_l h_u k hcrit i 0%nat 99%nat) as [a [b [Ha [Hb Hab]]]];
      [lia | rewrite Hlen; lia |].
    rewrite Hv0 in Ha. injection Ha as <-.
    rewrite Hv, Hb. unfold fgt. apply flt_false. lra.
  - replace 99%nat with (length (Numerical.Vapprox l S w h_l h_u k hcrit i) - 1)%nat
      by (rewrite Hlen; reflexivity).
    apply interp_right.
    rewrite Hlen. exact H.
Qed.

(** ** The friction regime of the numerical model *)

Ltac fl_red := cbn [fadd fsub fmul lift2 fin fsqr].

Lemma numerical_cst_beta : Numerical.cst_beta = 1 / 5.
Proof.
  unfold Numerical.cst_beta, Numerical.cst_h, Numerical.cst_S, Numerical.cst_l.
  replace (0.05 * 100) with 5 by lra. reflexivity.
Qed.

Lemma numerical_cst_gamma : Numerical.cst_gamma = 0.42 * sqrt 2.
Proof.
  unfold Numerical.cst_gamma, Numerical.cst_Q, Numerical.cst_g,
    Numerical.cst_h, Numerical.cst_w, Numerical.cst_S, Numerical.manning.
  rewrite <- !rpow_pos by lra. rewrite !rpow_one.
  rewrite rpow_pos by lra.
  replace (1 / 2) with (/ 2) by lra. rewrite Rpower_sqrt by lra.
  replace (2 * 9.8) with (14 ^ 2 * 2 * 0.05) by lra.
  rewrite !sqrt_mult by lra. rewrite sqrt_pow2 by lra.
  assert (0 < sqrt 0.05) by (apply sqrt_lt_R0; lra).
  set (s := sqrt 0.05) in *.
  replace 0.03 with (3 / 100) by lra.
  replace 0.42 with (42 / 100) by lra.
  field. lra.
Qed.

Section Friction.

Variables l S w h_l h_u k : nat -> R.
Variable hcrit : nat -> float.
Variable i : nat.
Hypothesis w_pos : 0 < w i.
Hypothesis S_pos : 0 < S i.
Hypothesis l_pos : 0 < l i.

Lemma numerical_Qfric_fin (h : R) :
  0 <= h ->
  Numerical.Qfric S w (Some h) i = Some (w i * rpow h (5/3) * sqrt (S i)).
Proof.
  intros Hh. unfold Numerical.Qfric.
  rewrite fpow_fin by assumption. unfold fin. rewrite np_sqrt_fin by lra.
  reflexivity.
Qed.

Lemma numerical_Qfun_friction (h : R) :
  0 <= h ->
  flt (Some h) (max (hcrit i) (Some (h_l i))) = true ->
  Numerical.Qfun S w h_l h_u k hcrit (Some h) i
  = Some (w i * rpow h (5/3) * sqrt (S i)).
Proof.
  intros Hh Hlt. unfold Numerical.Qfun. unfold fin. rewrite Hlt.
  now apply numerical_Qfric_fin.
Qed.

Lemma numerical_Vfun_friction (h : R) :
  0 <= h ->
  flt (Some h) (max (hcrit i) (Some (h_l i))) = true ->
  Numerical.Vfun l S w h_l h_u k hcrit (Some h) i = Some (w i * l i * h).
Proof.
  intros Hh Hlt. unfold Numerical.Vfun.
  rewrite numerical_Qfun_friction by assumption.
  assert (Hs : 0 < sqrt (S i)) by (now apply sqrt_lt_R0).
  unfold fin. rewrite fdiv_fin by lra. rewrite np_sqrt_fin by lra.
  rewrite fdiv_fin by lra.
  replace (w i * rpow h (5 / 3) * sqrt (S i) / w i / sqrt (S i))
    with (rpow h (5 / 3)) by (field; lra).
  rewrite fpow_fin by apply rpow_nonneg.
  rewrite rpow_inverse by (try assumption; lra).
  fl_red. rewrite numerical_cst_beta.
  rewrite flt_true.
  2:{ assert (0 < S i * l i / (1 / 5)); [|lra].
      apply Rdiv_lt_0_compat; [apply Rmult_lt_0_compat; assumption | lra]. }
  rewrite max_fin. fl_red. rewrite fdiv_fin by lra. fl_red.
  f_equal. rewrite Rmax_left by lra. field. lra.
Qed.

End Friction.

Lemma running_max_nth_sorted (vs : list float) :
  forall (f : nat -> R) (r : R),
    (forall j, (j < length vs)%nat -> nth j vs NaN = Some (f j)) ->
    (forall j j', (j <= j')%nat -> f j <= f j') ->
    r <= f 0%nat ->
    forall j, (j < length vs)%nat ->
      nth j (Numerical.running_max (Some r) vs) NaN = Some (f j).
Proof.
  induction vs as [|v vs IH]; intros f r Hv Hf Hr j Hj; simpl in Hj; [lia|].
  pose proof (Hv 0%nat ltac:(simpl; lia)) as H0. simpl in H0. subst v.
  simpl. rewrite max_fin, Rmax_right by assumption.
  destruct j as [|j]; [reflexivity|].
  apply (IH (fun j => f (S j))).
  - intros j' Hj'. apply (Hv (S j')). simpl. lia.
  - intros a b Hab. apply Hf. lia.
  - apply Hf. lia.
  - lia.
Qed.

(** *** The undammed segment 0 of the example network *)

Lemma Example_l (i : nat) : Example.l i = 1.
Proof.
  unfold Example.l, Numerical.df_l, Numerical.data_l, Example.Shape_Leng,
    Numerical.cst_l. lra.
Qed.

Lemma Example_S (i : nat) : Example.S i = 4.
Proof.
  unfold Example.S, Numerical.df_S, Numerical.data_S, Example.Slope,
    Numerical.cst_S.
  destruct (Rle_dec (-0.2 * -1) 0.1); lra.
Qed.

Lemma Example_w (i : nat) : Example.w i = 16.
Proof.
  unfold Example.w, Numerical.df_w, Numerical.data_w, Example.widths,
    Numerical.cst_w. lra.
Qed.

Lemma Example_h_l_0 : Example.h_l 0%nat = 100.
Proof.
  unfold Example.h_l, Numerical.df_h_l, Example.data_df, Numerical.cst_h.
  simpl. unfold set_at. simpl. lra.
Qed.

Lemma Example_h_u_0 : Example.h_u 0%nat = 101.
Proof.
  unfold Example.h_u, Numerical.df_h_u, Example.data_df, Numerical.cst_h.
  simpl. unfold set_at. simpl. lra.
Qed.

Lemma Example_friction (h : R) :
  h < 101 ->
  flt (Some h) (max (Example.hcrit 0) (Some (Example.h_l 0%nat))) = true.
Proof.
  intros Hh. unfold Example.hcrit, fin.
  rewrite max_fin, Example_h_l_0, Example_h_u_0.
  apply flt_true. rewrite Rmax_left by lra. exact Hh.
Qed.

Lemma sqrt_4 : sqrt 4 = 2.
Proof. apply sqrt_lem_1; lra. Qed.

Lemma Example_Qfun (h : R) :
  0 <= h < 101 ->
  Numerical.Qfun Example.S Example.w Example.h_l Example.h_u Example.k
    Example.hcrit (Some h) 0
  = Some (32 * rpow h (5/3)).
Proof.
  intros [Hh0 Hh]. rewrite numerical_Qfun_friction.
  - rewrite Example_w, Example_S, sqrt_4. f_equal. ring.
  - rewrite Example_S. lra.
  - assumption.
  - now apply Example_friction.
Qed.

Lemma Example_Vfun (h : R) :
  0 <= h < 101 ->
  Numerical.Vfun Example.l Example.S Example.w Example.h_l Example.h_u Example.k
    Example.hcrit (Some h) 0
  = Some (16 * h).
Proof.
  intros [Hh0 Hh]. rewrite numerical_Vfun_friction.
  - rewrite Example_w, Example_l. f_equal. ring.
  - rewrite Example_w. lra.
  - rewrite Example_S. lra.
  - rewrite Example_l. lra.
  - assumption.
  - now apply Example_friction.
Qed.

Lemma grid_bounds (j : nat) : (j < 100)%nat -> 0 <= nth j Numerical.grid 0 <= 20.
Proof.
  intros Hj. rewrite grid_nth by assumption.
  pose proof (pos_INR j) as H0.
  assert (INR j <= 99).
  { replace 99 with (INR 99) by (rewrite INR_IZR_INZ; reflexivity).
    apply le_INR. lia. }
  lra.
Qed.

Lemma Example_Vapprox (j : nat) :
  (j < 100)%nat ->
  nth j (Numerical.Vapprox Example.l Example.S Example.w Example.h_l Example.h_u
           Example.k Example.hcrit 0) NaN
  = Some (16 * (INR j * (20 / 99))).
Proof.
  intros Hj. unfold Numerical.Vapprox, fin.
  apply (running_max_nth_sorted _ (fun j => 16 * (INR j * (20 / 99)))).
  - intros j'. rewrite length_map, grid_length. intros Hj'.
    set (f := fun h : R => Numerical.Vfun _ _ _ _ _ _ _ (Some h) 0).
    rewrite (nth_indep _ NaN (f 0)) by (now rewrite length_map, grid_length).
    rewrite (map_nth f). unfold f.
    rewrite Example_Vfun by (pose proof (grid_bounds j' Hj'); lra).
    now rewrite grid_nth.
  - intros a b Hab. apply le_INR in Hab. lra.
  - simpl. lra.
  - now rewrite length_map, grid_length.
Qed.

Lemma Example_Qapprox (j : nat) :
  (j < 100)%nat ->
  nth j (Numerical.Qapprox Example.S Example.w Example.h_l Example.h_u
           Example.k Example.hcrit 0) NaN
  = Some (32 * rpow (INR j * (20 / 99)) (5/3)).
Proof.
  intros Hj. rewrite Qapprox_nth by assumption.
  rewrite Example_Qfun by (pose proof (grid_bounds j Hj); lra).
  now rewrite grid_nth.
Qed.

Lemma Qvals_clamps_witness :
  let V := [Some (-1); Some 321; Some 0] in
  nth 0 (Numerical.Qvals Example.N Example.l Example.S Example.w Example.h_l
           Example.h_u Example.k Example.hcrit V) NaN
  = nth 0 (Numerical.Qapprox Example.S Example.w Example.h_l Example.h_u
             Example.k Example.hcrit 0) NaN /\
  nth 0 (Numerical.Qvals Example.N Example.l Example.S Example.w Example.h_l
           Example.h_u Example.k Example.hcrit [Some 321]) NaN
  = nth 99 (Numerical.Qapprox Example.S Example.w Example.h_l Example.h_u
              Example.k Example.hcrit 0) NaN.
Proof.
  intros V. split.
  - apply (Qvals_clamps Example.N Example.l Example.S Example.w Example.h_l
             Example.h_u Example.k Example.hcrit V 0).
    + unfold Example.N. lia.
    + rewrite Example_Vapprox by lia. simpl nth. apply flt_true. simpl. lra.
  - apply (Qvals_clamps Example.N Example.l Example.S Example.w Example.h_l
             Example.h_u Example.k Example.hcrit [Some 321] 0).
    + unfold Example.N. lia.
    + rewrite Example_Vapprox by lia. simpl nth. unfold fgt. apply flt_true.
      replace (INR 99) with 99 by (rewrite INR_IZR_INZ; reflexivity). lra.
Defined.

(** ** Height to volume to discharge *)

Lemma running_max_step (vs : list float) :
  forall r j, (j + 1 < length vs)%nat ->
    nth (j + 1) (Numerical.running_max (Some r) vs) NaN
    = max (nth j (Numerical.running_max (Some r) vs) NaN) (nth (j + 1) vs NaN).
Proof.
  induction vs as [|v vs IH]; intros r j Hj; simpl in Hj; [lia|].
  cbn [Numerical.running_max]. cbv zeta.
  destruct (max_fin_l r v) as [r' [Hr' _]]. rewrite Hr'.
  destruct j as [|j].
  - destruct vs as [|v' vs]; simpl in Hj; [lia|]. reflexivity.
  - change (S j + 1)%nat with (S (j + 1)). cbn [nth]. apply IH. lia.
Qed.

Lemma Vapprox_step
    (l S w h_l h_u k : nat -> R) (hcrit : nat -> float) (i j : nat) :
  (j + 1 < 100)%nat ->
  nth (j + 1) (Numerical.Vapprox l S w h_l h_u k hcrit i) NaN
  = max (nth j (Numerical.Vapprox l S w h_l h_u k hcrit i) NaN)
        (Numerical.Vfun l S w h_l h_u k hcrit (Some (nth (j + 1) Numerical.grid 0)) i).
Proof.
  intros Hj. unfold Numerical.Vapprox, fin.
  rewrite running_max_step by (rewrite length_map, grid_length; lia).
  f_equal.
  set (f := fun h0 : R => Numerical.Vfun l S w h_l h_u k hcrit (Some h0) i).
  rewrite (nth_indep (map f Numerical.grid) NaN (f 0))
    by (rewrite length_map, grid_length; lia).
  now rewrite (map_nth f).
Qed.

Lemma fge_inv (a b : float) :
  fge a b = true -> exists x y, a = Some x /\ b = Some y /\ y <= x.
Proof.
  destruct a as [x|], b as [y|]; simpl; try discriminate.
  destruct (Rle_dec y x); [|discriminate]. intros _. now exists x, y.
Qed.

(** C4, as the tables have it.  Take a height [h] in the grid cell from
    [h_j] up to, but not at, [h_(j+1)], on a segment for which the tabulated
    volume at [h_j] is the volume of [h_j] and, over the cell, the volume is
    a strictly increasing and the discharge a non-decreasing number.
    Looking the volume of [h] up gives a number [a], the discharge of [h]
    is a number [b], and both lie between the tabulated discharges [p] at
    [h_j] and [q] at [h_(j+1)]: they differ by at most the increment
    [q - p] of the discharge table over the cell, and they are equal at
    [h = h_j]. *)
Theorem roundtrip_within_table_increment
    (l S w h_l h_u k : nat -> R) (hcrit : nat -> float) (i j : nat) (h : R) :
  (j + 1 < 100)%nat ->
  Numerical.Vfun l S w h_l h_u k hcrit (Some (nth j Numerical.grid 0)) i
  = nth j (Numerical.Vapprox l S w h_l h_u k hcrit i) NaN ->
  (forall x y,
     nth j Numerical.grid 0 <= x -> x < y -> y <= nth (j + 1) Numerical.grid 0 ->
     flt (Numerical.Vfun l S w h_l h_u k hcrit (Some x) i)
         (Numerical.Vfun l S w h_l h_u k hcrit (Some y) i) = true) ->
  (forall x y,
     nth j Numerical.grid 0 <= x -> x <= y -> y <= nth (j + 1) Numerical.grid 0 ->
     fge (Numerical.Qfun S w h_l h_u k hcrit (Some y) i)
         (Numerical.Qfun S w h_l h_u k hcrit (Some x) i) = true) ->
  nth j Numerical.grid 0 <= h < nth (j + 1) Numerical.grid 0 ->
  exists a b p q,
    Numerical.qfunexp l S w h_l h_u k hcrit
      (Numerical.Vfun l S w h_l h_u k hcrit (Some h) i) i = Some a /\
    Numerical.Qfun S w h_l h_u k hcrit (Some h) i = Some b /\
    nth j (Numerical.Qapprox S w h_l h_u k hcrit i) NaN = Some p /\
    nth (j + 1) (Numerical.Qapprox S w h_l h_u k hcrit i) NaN = Some q /\
    p <= a <= q /\ p <= b <= q /\
    Rabs (a - b) <= q - p /\
    (h = nth j Numerical.grid 0 -> a = b).
Proof.
  intros Hj Hraw HV HQ [Hlo Hhi].
  set (hj := nth j Numerical.grid 0) in *.
  set (hj1 := nth (j + 1) Numerical.grid 0) in *.
  assert (Hcell : hj < hj1) by lra.
  pose proof (Vapprox_length l S w h_l h_u k hcrit i) as Hlen.
  pose proof (Vapprox_sorted l S w h_l h_u k hcrit i) as Hs.
  (* the two volumes and the two discharges at the ends of the cell *)
  destruct (flt_inv _ _ (HV hj hj1 ltac:(lra) Hcell ltac:(lra)))
    as [vj [vj1 [Hvj [Hvj1 Hvv]]]].
  destruct (fge_inv _ _ (HQ hj hj1 ltac:(lra) ltac:(lra) ltac:(lra)))
    as [q [p [Hq [Hp Hpq]]]].
  assert (HVj : nth j (Numerical.Vapprox l S w h_l h_u k hcrit i) NaN = Some vj)
    by (now rewrite <- Hraw).
  assert (HVj1 : nth (j + 1) (Numerical.Vapprox l S w h_l h_u k hcrit i) NaN
                 = Some vj1).
  { rewrite Vapprox_step by lia. fold hj1. rewrite HVj, Hvj1.
    rewrite max_fin. f_equal. apply Rmax_right. lra. }
  assert (HQj : nth j (Numerical.Qapprox S w h_l h_u k hcrit i) NaN = Some p)
    by (rewrite Qapprox_nth by lia; exact Hp).
  assert (HQj1 : nth (j + 1) (Numerical.Qapprox S w h_l h_u k hcrit i) NaN = Some q)
    by (rewrite Qapprox_nth by lia; exact Hq).
  (* the discharge of [h] *)
  destruct (fge_inv _ _ (HQ hj h ltac:(lra) Hlo ltac:(lra)))
    as [b [p' [Hb [Hp' Hpb]]]].
  rewrite Hp in Hp'. injection Hp' as <-.
  destruct (fge_inv _ _ (HQ h hj1 Hlo ltac:(lra) ltac:(lra)))
    as [q' [b' [Hq' [Hb' Hbq]]]].
  rewrite Hq in Hq'. injection Hq' as <-.
  rewrite Hb in Hb'. injection Hb' as <-.
  destruct (Req_dec_T h hj) as [Heq|Hne].
  - (* at the node *)
    exists p, b, p, q. subst h. rewrite Hb in Hp. injection Hp as ->.
    rewrite Hvj. unfold Numerical.qfunexp.
    rewrite (interp_node _ _ j vj Hs); [| lia | exact HVj |].
    + repeat split; try assumption; try lra.
      rewrite Rminus_diag, Rabs_R0. lra.
    + intros _. exists vj1. split; [exact HVj1 | exact Hvv].
  - (* inside the cell *)
    assert (Hlt : hj < h) by lra.
    destruct (flt_inv _ _ (HV hj h ltac:(lra) Hlt ltac:(lra)))
      as [vj' [v [Hvj' [Hv Hvjv]]]].
    rewrite Hvj in Hvj'. injection Hvj' as <-.
    destruct (flt_inv _ _ (HV h hj1 Hlo Hhi ltac:(lra)))
      as [v' [vj1' [Hv' [Hvj1' Hvvj1]]]].
    rewrite Hv in Hv'. injection Hv' as <-.
    rewrite Hvj1 in Hvj1'. injection Hvj1' as <-.
    exists ((q - p) / (vj1 - vj) * (v - vj) + p), b, p, q.
    rewrite Hv. unfold Numerical.qfunexp.
    rewrite (interp_cell _ _ j vj vj1 p q v Hs); try assumption; try lia; try lra.
    assert (Hth : 0 <= (v - vj) / (vj1 - vj) <= 1).
    { split.
      - apply Rmult_le_pos; [lra|]. left. apply Rinv_0_lt_compat. lra.
      - apply Rmult_le_reg_r with (vj1 - vj); [lra|].
        unfold Rdiv. rewrite Rmult_assoc, Rinv_l by lra. lra. }
    set (th := (v - vj) / (vj1 - vj)) in *.
    replace ((q - p) / (vj1 - vj) * (v - vj) + p) with (p + (q - p) * th)
      by (unfold th; field; lra).
    assert (Ha : 0 <= (q - p) * th <= q - p).
    { split; [apply Rmult_le_pos; lra|].
      replace (q - p) with ((q - p) * 1) at 2 by ring.
      apply Rmult_le_compat_l; lra. }
    repeat split; try assumption; try lra.
    + apply Rabs_le. lra.
Qed.

Lemma roundtrip_within_table_increment_witness :
  exists a b p q,
    Numerical.qfunexp Example.l Example.S Example.w Example.h_l Example.h_u
      Example.k Example.hcrit
      (Numerical.Vfun Example.l Example.S Example.w Example.h_l Example.h_u
         Example.k Example.hcrit (Some (5 / 198)) 0) 0 = Some a /\
    Numerical.Qfun Example.S Example.w Example.h_l Example.h_u Example.k
      Example.hcrit (Some (5 / 198)) 0 = Some b /\
    nth 0 (Numerical.Qapprox Example.S Example.w Example.h_l Example.h_u
             Example.k Example.hcrit 0) NaN = Some p /\
    nth (0 + 1) (Numerical.Qapprox Example.S Example.w Example.h_l Example.h_u
                   Example.k Example.hcrit 0) NaN = Some q /\
    p <= a <= q /\ p <= b <= q /\
    Rabs (a - b) <= q - p /\
    (5 / 198 = nth 0 Numerical.grid 0 -> a = b).
Proof.
  assert (H0 : nth 0 Numerical.grid 0 = 0)
    by (rewrite grid_nth by lia; simpl; lra).
  assert (H1 : nth (0 + 1) Numerical.grid 0 = 20 / 99)
    by (rewrite grid_nth by lia; simpl; lra).
  apply (roundtrip_within_table_increment Example.l Example.S Example.w
           Example.h_l Example.h_u Example.k Example.hcrit 0 0 (5 / 198)).
  - lia.
  - rewrite Example_Vapprox by lia. rewrite H0.
    rewrite Example_Vfun by lra. f_equal. simpl. lra.
  - intros x y Hx Hxy Hy. rewrite H0 in Hx. rewrite H1 in Hy.
    rewrite !Example_Vfun by lra. apply flt_true. lra.
  - intros x y Hx Hxy Hy. rewrite H0 in Hx. rewrite H1 in Hy.
    rewrite !Example_Qfun by lra. apply fge_true.
    apply Rmult_le_compat_l; [lra|]. apply rpow_le; lra.
  - rewrite H0, H1. lra.
Defined.

Lemma Rpower_eighth : Rpower (1 / 8) (5 / 3) = 1 / 32.
Proof.
  replace (1 / 8) with (Rpower (1 / 2) (INR 3)).
  - rewrite Rpower_mult.
    replace (INR 3 * (5 / 3)) with (INR 5) by (simpl; lra).
    rewrite Rpower_pow by lra. lra.
  - rewrite Rpower_pow by lra. lra.
Qed.

Lemma Rpower_step_lower : 20 / 297 < Rpower (20 / 99) (5 / 3).
Proof.
  replace (5 / 3) with (1 + 2 / 3) by lra.
  rewrite Rpower_plus, Rpower_1 by lra.
  set (y := Rpower (20 / 99) (2 / 3)).
  assert (Hy : 0 < y) by (unfold y, Rpower; apply exp_pos).
  assert (Hy3 : y ^ 3 = (20 / 99) ^ 2).
  { rewrite <- (Rpower_pow 3 y Hy). unfold y. rewrite Rpower_mult.
    replace (2 / 3 * INR 3) with (INR 2) by (simpl; lra).
    rewrite Rpower_pow by lra. reflexivity. }
  assert (1 / 3 < y); [|lra].
  destruct (Rlt_le_dec (1 / 3) y) as [H|H]; [exact H|exfalso].
  assert (y ^ 3 <= (1 / 3) ^ 3) by (apply pow_incr; lra).
  rewrite Hy3 in H0. lra.
Qed.

(** Against C4 as it is stated: segment 0 of the example network, 32 m wide
    with slope 0.2 and no dam, at the height 5/198, an eighth of the grid
    spacing.  The looked-up discharge is four times the discharge of that
    height, and they differ by more than the grid spacing 20/99. *)
Lemma roundtrip_off_grid :
  0 < 5 / 198 < 20 /\
  exists a b,
    Numerical.qfunexp Example.l Example.S Example.w Example.h_l Example.h_u
      Example.k Example.hcrit
      (Numerical.Vfun Example.l Example.S Example.w Example.h_l Example.h_u
         Example.k Example.hcrit (Some (5 / 198)) 0) 0 = Some a /\
    Numerical.Qfun Example.S Example.w Example.h_l Example.h_u Example.k
      Example.hcrit (Some (5 / 198)) 0 = Some b /\
    a = 4 * b /\
    20 / 99 < Rabs (a - b).
Proof.
  split; [lra|].
  set (D := Rpower (20 / 99) (5 / 3)).
  assert (HD : rpow (20 / 99) (5 / 3) = D) by (apply rpow_pos; lra).
  assert (Hb : rpow (5 / 198) (5 / 3) = D / 32).
  { rewrite rpow_pos by lra.
    replace (5 / 198) with (20 / 99 * (1 / 8)) by lra.
    rewrite <- Rpower_mult_distr by lra. rewrite Rpower_eighth. unfold D. lra. }
  exists (4 * D), D. split; [|split; [|split]].
  - rewrite Example_Vfun by lra. unfold Numerical.qfunexp.
    rewrite (interp_cell _ _ 0 0 (320 / 99) 0 (32 * D)).
    + f_equal. lra.
    + apply Vapprox_sorted.
    + rewrite Vapprox_length. lia.
    + rewrite Example_Vapprox by lia. f_equal. simpl. lra.
    + rewrite Example_Vapprox by lia. f_equal. simpl. lra.
    + rewrite Example_Qapprox by lia. f_equal. simpl.
      rewrite Rmult_0_l, rpow_zero. lra.
    + rewrite Example_Qapprox by lia. f_equal. simpl.
      rewrite Rmult_1_l, HD. reflexivity.
    + lra.
  - rewrite Example_Qfun by lra. rewrite Hb. f_equal. lra.
  - reflexivity.
  - pose proof Rpower_step_lower as HDl. fold D in HDl.
    rewrite Rabs_right by lra. lra.
Qed.

Lemma sqrt_2_upper : sqrt 2 <= 3 / 2.
Proof.
  replace (3 / 2) with (sqrt ((3 / 2) * (3 / 2))) by (apply sqrt_square; lra).
  apply sqrt_le_1; lra.
Qed.

Lemma Example_k_dam : Example.k 1%nat = 0.
Proof.
  unfold Example.k, Numerical.df_k, Example.data_df. simpl. unfold set_at. simpl. lra.
Qed.

(** Why the discharge has to be non-decreasing over the cell: on the dammed
    segment 1 of the example network, whose critical height is the seed
    [h_u = 2] of a root search that did not converge, the dispatcher
    switches from friction to dam discharge inside the cell from [h_9] to
    [h_10], and the discharge table drops there. *)
Lemma Example_dam_table_drops :
  exists p q,
    nth 9 (Numerical.Qapprox Example.S Example.w Example.h_l Example.h_u
             Example.k Example.hcrit 1) NaN = Some p /\
    nth 10 (Numerical.Qapprox Example.S Example.w Example.h_l Example.h_u
              Example.k Example.hcrit 1) NaN = Some q /\
    q < p.
Proof.
  assert (H9 : nth 9 Numerical.grid 0 = 20 / 11)
    by (rewrite grid_nth by lia; simpl; lra).
  assert (H10 : nth 10 Numerical.grid 0 = 200 / 99)
    by (rewrite grid_nth by lia; simpl; lra).
  assert (Hsw : max (Example.hcrit 1) (Some (Example.h_l 1%nat)) = Some 2).
  { unfold Example.hcrit, fin. rewrite max_fin, Example_h_u_dam, Example_h_l_dam.
    f_equal. apply Rmax_left. lra. }
  eexists. eexists. split; [|split].
  - rewrite Qapprox_nth by lia. rewrite H9.
    apply numerical_Qfun_friction; [rewrite Example_S; lra | lra |].
    rewrite Hsw. apply flt_true. lra.
  - rewrite Qapprox_nth by lia. rewrite H10.
    unfold Numerical.Qfun, fin. rewrite Hsw. rewrite flt_false by lra.
    unfold Numerical.Qdam, fin. cbv zeta.
    rewrite Example_h_l_dam, Example_h_u_dam, Example_k_dam, Example_w.
    fl_red. rewrite min_fin, max_fin. rewrite !np_sqrt_fin by lra.
    assert (Hsq : 0 < sqrt (200 / 99 + 0.3)) by (apply sqrt_lt_R0; lra).
    rewrite fdiv_fin by lra. rewrite fpow_fin by apply Rmax_l. fl_red.
    reflexivity.
  - rewrite Example_w, Example_S, sqrt_4, numerical_cst_gamma.
    assert (Hp : 1 <= rpow (20 / 11) (5 / 3)).
    { rewrite <- (rpow_one (5 / 3)). apply rpow_le; lra. }
    assert (Hr : rpow (Rmax 0 (200 / 99 - 2)) (3 / 2) <= 1).
    { rewrite <- (rpow_one (3 / 2)). apply rpow_le; [|lra].
      rewrite Rmax_right by lra. lra. }
    pose proof (rpow_nonneg (Rmax 0 (200 / 99 - 2)) (3 / 2)) as Hr0.
    assert (Hs1 : 1 <= sqrt (200 / 99 + 0.3)).
    { rewrite <- sqrt_1 at 1. apply sqrt_le_1; lra. }
    assert (Ha1 : 0 <= 0.3 * (200 / 99) / sqrt (200 / 99 + 0.3) <= 0.3 * (200 / 99)).
    { split.
      - apply Rmult_le_pos; [lra|]. left. apply Rinv_0_lt_compat. lra.
      - apply Rmult_le_reg_r with (sqrt (200 / 99 + 0.3)); [lra|].
        unfold Rdiv. rewrite Rmult_assoc, Rinv_l by lra.
        rewrite Rmult_1_r.
        replace (0.3 * (200 * / 99)) with (0.3 * (200 * / 99) * 1) at 1 by ring.
        apply Rmult_le_compat_l; lra. }
    pose proof sqrt_2_upper as Hs2. pose proof (sqrt_pos 2) as Hs20.
    set (a1 := 0.3 * (200 / 99) / sqrt (200 / 99 + 0.3)) in *.
    set (r := rpow (Rmax 0 (200 / 99 - 2)) (3 / 2)) in *.
    set (P := rpow (20 / 11) (5 / 3)) in *.
    set (s2 := sqrt 2) in *.
    assert (Hsum : 0 <= a1 + 0 * sqrt (200 / 99) * Rmin (200 / 99 - 0.3) (2 - 0.3)
                        + 0.6 * 2 / 3 * r <= 1.1) by lra.
    set (sum := a1 + 0 * sqrt (200 / 99) * Rmin (200 / 99 - 0.3) (2 - 0.3)
                + 0.6 * 2 / 3 * r) in *.
    assert (0.42 * s2 * 16 * sum <= 0.42 * (3 / 2) * 16 * 1.1).
    { apply Rmult_le_compat; lra. }
    lra.
Qed.

(** Where the conditions hold: on a segment of positive width, slope and
    length, every cell that ends below the regime switch [max(hcrit, h_l)];
    for a segment without a dam, whose [h_l] is 100, and a critical height
    that is a number, these are all the cells of the grid. *)
Lemma friction_cell_monotone
    (l S w h_l h_u k : nat -> R) (hcrit : nat -> float) (i j : nat) :
  0 < w i -> 0 < S i -> 0 < l i -> (j + 1 < 100)%nat ->
  flt (Some (nth (j + 1) Numerical.grid 0)) (max (hcrit i) (Some (h_l i))) = true ->
  Numerical.Vfun l S w h_l h_u k hcrit (Some (nth j Numerical.grid 0)) i
  = nth j (Numerical.Vapprox l S w h_l h_u k hcrit i) NaN /\
  (forall x y,
     nth j Numerical.grid 0 <= x -> x < y -> y <= nth (j + 1) Numerical.grid 0 ->
     flt (Numerical.Vfun l S w h_l h_u k hcrit (Some x) i)
         (Numerical.Vfun l S w h_l h_u k hcrit (Some y) i) = true) /\
  (forall x y,
     nth j Numerical.grid 0 <= x -> x <= y -> y <= nth (j + 1) Numerical.grid 0 ->
     fge (Numerical.Qfun S w h_l h_u k hcrit (Some y) i)
         (Numerical.Qfun S w h_l h_u k hcrit (Some x) i) = true).
Proof.
  intros Hw HS Hl Hj Hsw.
  destruct (flt_inv _ _ Hsw) as [hj1 [m [Hhj1 [Hm Hlt]]]].
  assert (Hg : nth (j + 1) Numerical.grid 0 = hj1) by congruence.
  clear Hhj1.
  assert (Hfr : forall x, x <= nth (j + 1) Numerical.grid 0 ->
                  flt (Some x) (max (hcrit i) (Some (h_l i))) = true).
  { intros x Hx. rewrite Hm. apply flt_true. lra. }
  assert (Hgrid : forall j', (j' <= j + 1)%nat ->
                    0 <= nth j' Numerical.grid 0 <= nth (j + 1) Numerical.grid 0).
  { intros j' Hj'. rewrite !grid_nth by lia.
    pose proof (pos_INR j'). apply le_INR in Hj'. lra. }
  assert (HVf : forall x, 0 <= x -> x <= nth (j + 1) Numerical.grid 0 ->
                  Numerical.Vfun l S w h_l h_u k hcrit (Some x) i
                  = Some (w i * l i * x)).
  { intros x H0 Hx. apply numerical_Vfun_friction; auto. }
  assert (HQf : forall x, 0 <= x -> x <= nth (j + 1) Numerical.grid 0 ->
                  Numerical.Qfun S w h_l h_u k hcrit (Some x) i
                  = Some (w i * rpow x (5/3) * sqrt (S i))).
  { intros x H0 Hx. apply numerical_Qfun_friction; auto. }
  assert (Hwl : 0 < w i * l i) by (now apply Rmult_lt_0_compat).
  destruct (Hgrid j ltac:(lia)) as [Hj0 Hjj1].
  split; [|split].
  - rewrite HVf by assumption.
    set (f := fun h : R => Numerical.Vfun l S w h_l h_u k hcrit (Some h) i).
    destruct (running_max_attained (map f Numerical.grid) 0 j)
      as [x [Hx [H0x [Hdom Hatt]]]]; [rewrite length_map, grid_length; lia|].
    assert (Hraw : forall j', (j' <= j)%nat ->
                     nth j' (map f Numerical.grid) NaN
                     = Some (w i * l i * nth j' Numerical.grid 0)).
    { intros j' Hj'.
      rewrite (nth_indep (map f Numerical.grid) NaN (f 0))
        by (rewrite length_map, grid_length; lia).
      rewrite (map_nth f). unfold f.
      destruct (Hgrid j' ltac:(lia)). now apply HVf. }
    unfold Numerical.Vapprox, fin. fold f. rewrite Hx. f_equal.
    pose proof (Hdom _ (Hraw j ltac:(lia))) as Hge.
    destruct Hatt as [->|[j' [Hj' Hatt]]].
    + assert (0 <= w i * l i * nth j Numerical.grid 0)
        by (apply Rmult_le_pos; lra).
      lra.
    + rewrite Hraw in Hatt by assumption.
      assert (Hxj' : x = w i * l i * nth j' Numerical.grid 0) by congruence.
      assert (nth j' Numerical.grid 0 <= nth j Numerical.grid 0).
      { rewrite !grid_nth by lia. apply le_INR in Hj'. lra. }
      assert (w i * l i * nth j' Numerical.grid 0 <= w i * l i * nth j Numerical.grid 0)
        by (apply Rmult_le_compat_l; lra).
      lra.
  - intros x y Hx Hxy Hy. rewrite !HVf by lra. apply flt_true.
    apply Rmult_lt_compat_l; assumption.
  - intros x y Hx Hxy Hy. rewrite !HQf by lra. apply fge_true.
    apply Rmult_le_compat_r; [apply sqrt_pos|].
    apply Rmult_le_compat_l; [lra|]. apply rpow_le; lra.
Qed.

(** ** Continuity of the dispatched discharge at the critical height *)

(** In the numerical model the root search and the dispatcher use the same
    two discharge functions: a critical height at which the residual of the
    search is below [tol] leaves a jump below [tol]. *)
Lemma numerical_continuity (S w h_l h_u k : nat -> R) (i : nat)
    (hc : float) (r tol : R) :
  Numerical.fun_ S w h_l h_u k i hc = Some r ->
  Rabs r < tol ->
  exists a b,
    Numerical.Qfric S w hc i = Some a /\
    Numerical.Qdam w h_l h_u k hc i = Some b /\
    Rabs (a - b) < tol.
Proof.
  unfold Numerical.fun_. cbv zeta. intros Hr Htol.
  destruct (Numerical.Qfric S w hc i) as [a|]; [|discriminate].
  destruct (Numerical.Qdam w h_l h_u k hc i) as [b|]; [|discriminate].
  simpl in Hr. injection Hr as <-. now exists a, b.
Qed.

Lemma sqrt_2_lower : 1.4 < sqrt 2.
Proof.
  rewrite <- (sqrt_pow2 1.4) by lra. apply sqrt_lt_1; lra.
Qed.

Lemma hysteresis_cst_gamma : Hysteresis.cst_gamma = 0.49 * sqrt 2.
Proof.
  unfold Hysteresis.cst_gamma, Hysteresis.cst_Q, Hysteresis.cst_g,
    Hysteresis.cst_h, Hysteresis.cst_w, Hysteresis.cst_S, Hysteresis.manning.
  rewrite <- !rpow_pos by lra. rewrite !rpow_one.
  rewrite rpow_pos by lra.
  replace (1 / 2) with (/ 2) by lra. rewrite Rpower_sqrt by lra.
  replace (2 * 9.8) with (14 ^ 2 * 2 * 0.05) by lra.
  rewrite !sqrt_mult by lra. rewrite sqrt_pow2 by lra.
  assert (0 < sqrt 0.05) by (apply sqrt_lt_R0; lra).
  set (s := sqrt 0.05) in *.
  replace 0.035 with (35 / 1000) by lra.
  replace 0.49 with (49 / 100) by lra.
  field. lra.
Qed.

(** *** The dammed segment of the hysteresis example *)

Lemma ExampleH_S : ExampleH.S 0%nat = 2 * (8477 / 24000) ^ 2.
Proof.
  unfold ExampleH.S, Hysteresis.df_S, Hysteresis.data_S, ExampleH.Slope,
    Hysteresis.cst_S.
  destruct (Rle_dec (- ((8477 / 24000) ^ 2 / 10) * -1) 0.01); lra.
Qed.

Lemma ExampleH_w : ExampleH.w 0%nat = 1.
Proof.
  unfold ExampleH.w, Hysteresis.df_w, Hysteresis.data_w, ExampleH.widths,
    Hysteresis.cst_w. lra.
Qed.

Lemma ExampleH_h_l : ExampleH.h_l 0%nat = 9 / 16.
Proof.
  unfold ExampleH.h_l, Hysteresis.df_h_l, ExampleH.data_df, Hysteresis.cst_h.
  simpl. unfold set_at. simpl. lra.
Qed.

Lemma ExampleH_h_u : ExampleH.h_u 0%nat = 3 / 4.
Proof.
  unfold ExampleH.h_u, Hysteresis.df_h_u, ExampleH.data_df, Hysteresis.cst_h.
  simpl. unfold set_at. simpl. lra.
Qed.

Lemma ExampleH_k : ExampleH.k 0%nat = 1.
Proof.
  unfold ExampleH.k, Hysteresis.df_k, ExampleH.data_df. simpl. unfold set_at. reflexivity.
Qed.

Lemma ExampleH_sqrt_S : sqrt (ExampleH.S 0%nat) = sqrt 2 * (8477 / 24000).
Proof.
  rewrite ExampleH_S. rewrite sqrt_mult by lra. now rewrite sqrt_pow2 by lra.
Qed.

Lemma rpow_quarter : rpow (1 / 4) (3 / 2) = 1 / 8.
Proof.
  rewrite rpow_pos by lra.
  replace (1 / 4) with (Rpower (1 / 2) (INR 2)).
  - rewrite Rpower_mult.
    replace (INR 2 * (3 / 2)) with (INR 3) by (simpl; lra).
    rewrite Rpower_pow by lra. lra.
  - rewrite Rpower_pow by lra. lra.
Qed.

Lemma sqrt_25_16 : sqrt (1 + 9 / 16) = 5 / 4.
Proof. apply sqrt_lem_1; lra. Qed.

Lemma ExampleH_Qfric1 :
  Hysteresis.Qfric1 ExampleH.S ExampleH.w (Some 1) 0%nat
  = Some (sqrt 2 * (8477 / 24000)).
Proof.
  unfold Hysteresis.Qfric1, math_sqrt, fin.
  rewrite fpow_fin by lra. rewrite np_sqrt_fin by (rewrite ExampleH_S; lra).
  fl_red. rewrite ExampleH_sqrt_S, ExampleH_w, rpow_one. f_equal. ring.
Qed.

Lemma ExampleH_Qfric :
  Hysteresis.Qfric ExampleH.S ExampleH.w (Some 1) 0%nat
  = Some (sqrt 2 * (8477 / 24000)).
Proof. exact ExampleH_Qfric1. Qed.

Lemma ExampleH_Qdam1 :
  Hysteresis.Qdam1 ExampleH.w ExampleH.h_l ExampleH.h_u ExampleH.k (Some 1) 0%nat
  = Some (sqrt 2 * (8477 / 24000)).
Proof.
  unfold Hysteresis.Qdam1, fin. cbv zeta.
  rewrite ExampleH_h_l, ExampleH_h_u, ExampleH_k, ExampleH_w, hysteresis_cst_gamma.
  fl_red. rewrite min_fin, max_fin.
  rewrite !np_sqrt_fin by lra. rewrite sqrt_25_16, sqrt_1.
  rewrite fdiv_fin by lra.
  rewrite Rmin_right, Rmax_right by lra.
  rewrite fpow_fin by lra.
  replace (1 - 3 / 4) with (1 / 4) by lra. rewrite rpow_quarter.
  fl_red. f_equal. lra.
Qed.

Lemma ExampleH_Qdam :
  Hysteresis.Qdam ExampleH.w ExampleH.h_l ExampleH.h_u ExampleH.k (Some 1) 0%nat
  = Some (sqrt 2 * (8477 / 24000) - Hysteresis.cst_gamma / 30).
Proof.
  unfold Hysteresis.Qdam, fin. cbv zeta.
  rewrite ExampleH_h_l, ExampleH_h_u, ExampleH_k, ExampleH_w, hysteresis_cst_gamma.
  fl_red. rewrite min_fin, max_fin.
  rewrite !np_sqrt_fin by lra. rewrite sqrt_25_16, sqrt_1.
  rewrite fdiv_fin by lra.
  rewrite Rmin_right, Rmax_right by lra.
  rewrite fpow_fin by lra.
  replace (1 - 3 / 4) with (1 / 4) by lra. rewrite rpow_quarter.
  fl_red. f_equal. lra.
Qed.

(** C1 in the hysteresis notebook: a dammed segment whose root search
    returns the height 1, an exact root of the function that was searched.
    The search runs on [Qfric1] and [Qdam1], the dispatcher switches between
    [Qfric] and [Qdam], whose overflow term carries the factor 0.6: at the
    critical height the friction and dam values of the dispatcher differ by
    [cst_gamma / 30], more than 0.02, and the dispatched discharge jumps
    by that much. *)
Theorem hysteresis_dispatch_gap :
  Hysteresis.hcrit_build ExampleH.N ExampleH.S ExampleH.w ExampleH.h_l
    ExampleH.h_u ExampleH.k ExampleH.root = Returned [Some 1] /\
  Hysteresis.fun_ ExampleH.S ExampleH.w ExampleH.h_l ExampleH.h_u ExampleH.k
    0 (Some 1) = Some 0 /\
  exists a b,
    Hysteresis.Qfric ExampleH.S ExampleH.w (Some 1) 0 = Some a /\
    Hysteresis.Qdam ExampleH.w ExampleH.h_l ExampleH.h_u ExampleH.k (Some 1) 0
      = Some b /\
    Hysteresis.Qfun ExampleH.S ExampleH.w ExampleH.h_l ExampleH.h_u ExampleH.k
      ExampleH.hcrit (Some 1) 0 = Some b /\
    a - b = Hysteresis.cst_gamma / 30 /\
    0.02 < Rabs (a - b).
Proof.
  split; [reflexivity|]. split.
  - unfold Hysteresis.fun_. cbv zeta.
    rewrite ExampleH_Qfric1, ExampleH_Qdam1. fl_red. f_equal. ring.
  - exists (sqrt 2 * (8477 / 24000)),
           (sqrt 2 * (8477 / 24000) - Hysteresis.cst_gamma / 30).
    split; [exact ExampleH_Qfric|].
    split; [exact ExampleH_Qdam|].
    split; [|split].
    + unfold Hysteresis.Qfun, ExampleH.hcrit, fin.
      rewrite max_fin, ExampleH_h_l, Rmax_left by lra.
      rewrite flt_false by lra. exact ExampleH_Qdam.
    + ring.
    + pose proof sqrt_2_lower. rewrite hysteresis_cst_gamma.
      rewrite Rabs_right; lra.
Qed.

(** ** Arrays *)

Lemma vadd_length (xs ys : list float) :
  length (vadd xs ys) = Nat.min (length xs) (length ys).
Proof. unfold vadd. now rewrite length_map, length_combine. Qed.

Lemma vsub_length (xs ys : list float) :
  length (vsub xs ys) = Nat.min (length xs) (length ys).
Proof. unfold vsub. now rewrite length_map, length_combine. Qed.

Lemma dotT_length (n : nat) (A : nat -> nat -> R) (Q : list float) :
  length (dotT n A Q) = n.
Proof. unfold dotT. now rewrite length_map, length_seq. Qed.

Lemma combine_nth_lt {A B : Type} (xs : list A) (ys : list B) (x : A) (y : B) :
  forall j, (j < length xs)%nat -> (j < length ys)%nat ->
    nth j (combine xs ys) (x, y) = (nth j xs x, nth j ys y).
Proof.
  revert ys. induction xs as [|a xs IH]; intros [|b ys] j Hx Hy;
    simpl in *; try lia.
  destruct j as [|j]; [reflexivity|]. apply IH; lia.
Qed.

Lemma nth_vadd (xs ys : list float) (j : nat) :
  (j < length xs)%nat -> (j < length ys)%nat ->
  nth j (vadd xs ys) NaN = fadd (nth j xs NaN) (nth j ys NaN).
Proof.
  intros Hx Hy. unfold vadd.
  set (f := fun p : float * float => fadd (fst p) (snd p)).
  rewrite (nth_indep _ NaN (f (NaN, NaN)))
    by (rewrite length_map, length_combine; lia).
  rewrite (map_nth f). now rewrite combine_nth_lt by lia.
Qed.

Lemma nth_vsub (xs ys : list float) (j : nat) :
  (j < length xs)%nat -> (j < length ys)%nat ->
  nth j (vsub xs ys) NaN = fsub (nth j xs NaN) (nth j ys NaN).
Proof.
  intros Hx Hy. unfold vsub.
  set (f := fun p : float * float => fsub (fst p) (snd p)).
  rewrite (nth_indep _ NaN (f (NaN, NaN)))
    by (rewrite length_map, length_combine; lia).
  rewrite (map_nth f). now rewrite combine_nth_lt by lia.
Qed.

Lemma nth_dotT (n : nat) (A : nat -> nat -> R) (Q : list float) (j : nat) :
  (j < n)%nat ->
  nth j (dotT n A Q) NaN
  = fsum (map (fun i => fmul (fin (A i j)) (nth i Q NaN)) (seq 0 n)).
Proof.
  intros Hj. unfold dotT.
  set (f := fun j => fsum _).
  rewrite (nth_indep _ NaN (f 0%nat)) by (now rewrite length_map, length_seq).
  rewrite (map_nth f). now rewrite seq_nth.
Qed.

Lemma fadd_nan_r (a : float) : fadd a NaN = NaN.
Proof. now destruct a. Qed.

Lemma fsum_nan (xs : list float) : In NaN xs -> fsum xs = NaN.
Proof.
  induction xs as [|a xs IH]; intros Hin; [contradiction|].
  simpl. destruct Hin as [->|Hin]; [reflexivity|].
  rewrite IH by assumption. apply fadd_nan_r.
Qed.

Lemma fsum_fin (rs : list R) : fsum (map fin rs) = Some (rsum rs).
Proof.
  induction rs as [|r rs IH]; [reflexivity|].
  simpl. now rewrite IH.
Qed.

Lemma nth_map_fin (rs : list R) (j : nat) :
  (j < length rs)%nat -> nth j (map fin rs) NaN = Some (nth j rs 0).
Proof.
  intros Hj. rewrite (nth_indep _ NaN (fin 0)) by (now rewrite length_map).
  now rewrite (map_nth fin).
Qed.

(** ** Negative state components *)

Lemma comprehension_total {A B : Type} (f : A -> outcome B) (xs : list A) :
  (forall a, exists b, f a = Returned b) ->
  exists bs, comprehension f xs = Returned bs /\ length bs = length xs.
Proof.
  intros Hf. induction xs as [|a xs IH].
  - exists []. split; reflexivity.
  - destruct (Hf a) as [b Hb]. destruct IH as [bs [Hbs Hlen]].
    exists (b :: bs). cbn [comprehension]. rewrite Hb. cbn [bind].
    rewrite Hbs. cbn [bind]. split; [reflexivity | simpl; now rewrite Hlen].
Qed.

Lemma hysteresis_Vfun_bound
    (l S w h_l h_u k : nat -> R) (hcrit : nat -> float) (lam : nat -> R)
    (h : float) (i : nat) :
  exists v, Hysteresis.Vfun l S w h_l h_u k hcrit (Some lam) h i = Returned v.
Proof.
  unfold Hysteresis.Vfun. cbv zeta.
  destruct (flt h _); eexists; reflexivity.
Qed.

Lemma hysteresis_D1_bound
    (N : nat) (l S w h_l h_u k : nat -> R) (hcrit : nat -> float) (lam : nat -> R)
    (h V : list float) :
  exists D1,
    comprehension
      (fun i => v <- Hysteresis.Vfun l S w h_l h_u k hcrit (Some lam) (nth i h NaN) i ;;
                Returned (#10 * (nth i V NaN - v))%fl)
      (seq 0 N) = Returned D1 /\
    length D1 = N.
Proof.
  destruct (comprehension_total
              (fun i => v <- Hysteresis.Vfun l S w h_l h_u k hcrit (Some lam)
                               (nth i h NaN) i ;;
                        Returned (#10 * (nth i V NaN - v))%fl) (seq 0 N))
    as [D1 [HD1 Hlen]].
  - intros i. destruct (hysteresis_Vfun_bound l S w h_l h_u k hcrit lam (nth i h NaN) i)
      as [v Hv]. rewrite Hv. eexists. reflexivity.
  - exists D1. split; [exact HD1|]. now rewrite Hlen, length_seq.
Qed.

Section NegativeHeights.

Variables l S w h_l h_u k : nat -> R.
Variable hcrit : nat -> float.





End NegativeHeights.






(** ** The network balance *)

Lemma rsum_app (xs ys : list R) : rsum (xs ++ ys) = rsum xs + rsum ys.
Proof.
  induction xs as [|a xs IH]; simpl; [lra|]. rewrite IH. lra.
Qed.

Lemma rsum_seq_S (f : nat -> R) (n : nat) :
  rsum (map f (seq 0 (S n))) = rsum (map f (seq 0 n)) + f n.
Proof.
  rewrite seq_S, map_app, rsum_app. simpl. lra.
Qed.

Lemma rsum_ext (f g : nat -> R) (n : nat) :
  (forall i, (i < n)%nat -> f i = g i) ->
  rsum (map f (seq 0 n)) = rsum (map g (seq 0 n)).
Proof.
  intros H. f_equal. apply map_ext_in. intros i Hi. apply H.
  apply in_seq in Hi. lia.
Qed.

Lemma rsum_plus (f g : nat -> R) (n : nat) :
  rsum (map (fun i => f i + g i) (seq 0 n))
  = rsum (map f (seq 0 n)) + rsum (map g (seq 0 n)).
Proof.
  induction n as [|n IH]; [simpl; lra|].
  rewrite !rsum_seq_S, IH. lra.
Qed.

Lemma rsum_scal (c : R) (f : nat -> R) (n : nat) :
  rsum (map (fun i => f i * c) (seq 0 n)) = rsum (map f (seq 0 n)) * c.
Proof.
  induction n as [|n IH]; [simpl; lra|].
  rewrite !rsum_seq_S, IH. lra.
Qed.

Lemma rsum_swap (f : nat -> nat -> R) (m n : nat) :
  rsum (map (fun j => rsum (map (fun i => f i j) (seq 0 m))) (seq 0 n))
  = rsum (map (fun i => rsum (map (fun j => f i j) (seq 0 n))) (seq 0 m)).
Proof.
  induction n as [|n IH].
  - simpl. induction m as [|m IHm]; [reflexivity|].
    rewrite rsum_seq_S, <- IHm. lra.
  - rewrite rsum_seq_S, IH. rewrite <- rsum_plus.
    apply rsum_ext. intros i _. now rewrite rsum_seq_S.
Qed.

Lemma rsum_zero (f : nat -> R) (n : nat) :
  (forall j, (j < n)%nat -> f j = 0) -> rsum (map f (seq 0 n)) = 0.
Proof.
  induction n as [|n IH]; intros H; [reflexivity|].
  rewrite rsum_seq_S. rewrite IH by (intros; apply H; lia).
  rewrite H by lia. lra.
Qed.

Lemma rsum_single (f : nat -> R) (n j0 : nat) :
  (j0 < n)%nat -> f j0 = 1 ->
  (forall j, (j < n)%nat -> j <> j0 -> f j = 0) ->
  rsum (map f (seq 0 n)) = 1.
Proof.
  induction n as [|n IH]; intros Hj0 H1 H0; [lia|].
  rewrite rsum_seq_S.
  destruct (Nat.eq_dec j0 n) as [->|Hne].
  - rewrite rsum_zero by (intros j Hj; apply H0; lia). lra.
  - rewrite IH by (try lia; try assumption; intros j Hj; apply H0; lia).
    rewrite (H0 n) by lia. lra.
Qed.

Lemma rsum_as_nth (xs : list R) :
  rsum xs = rsum (map (fun i => nth i xs 0) (seq 0 (length xs))).
Proof.
  induction xs as [|a xs IH]; [reflexivity|].
  simpl. rewrite <- seq_shift, map_map. now rewrite <- IH.
Qed.

Lemma forallb_false_witness {A : Type} (f : A -> bool) (xs : list A) :
  forallb f xs = false -> exists a, In a xs /\ f a = false.
Proof.
  induction xs as [|a xs IH]; simpl; [discriminate|].
  destruct (f a) eqn:E; simpl.
  - intros H. destruct (IH H) as [b [Hb Hfb]]. exists b. split; [now right | exact Hfb].
  - intros _. exists a. split; [now left | exact E].
Qed.

Section Balance.

Variable N : nat.
Variables TONODE FROMNODE : nat -> Z.

Let A := Numerical.Adj TONODE FROMNODE.

Hypothesis one_downstream :
  forall i j j', (i < N)%nat -> (j < N)%nat -> (j' < N)%nat ->
    A i j <> 0 -> A i j' <> 0 -> j = j'.

Lemma Adj_0_or_1 (i j : nat) : A i j = 0 \/ A i j = 1.
Proof.
  unfold A, Numerical.Adj. destruct (TONODE i =? FROMNODE j)%Z; [now right | now left].
Qed.

Lemma row_sum (i : nat) :
  (i < N)%nat ->
  rsum (map (fun j => A i j) (seq 0 N)) = if row_is_zero N A i then 0 else 1.
Proof.
  intros Hi. destruct (row_is_zero N A i) eqn:E; unfold row_is_zero in E.
  - apply rsum_zero. intros j Hj.
    rewrite forallb_forall in E. specialize (E j).
    destruct (Req_dec_T (A i j) 0) as [H0|H0]; [exact H0|].
    discriminate E. apply in_seq. lia.
  - destruct (forallb_false_witness _ _ E) as [j0 [Hin Hj0]].
    apply in_seq in Hin.
    destruct (Req_dec_T (A i j0) 0) as [H0|H0]; [discriminate|].
    apply (rsum_single _ N j0); [lia | |].
    + destruct (Adj_0_or_1 i j0); [contradiction | assumption].
    + intros j Hj Hne.
      destruct (Req_dec_T (A i j) 0) as [Hz|Hnz]; [exact Hz|].
      exfalso. apply Hne. apply (one_downstream i j j0); try assumption; lia.
Qed.

Let balance := network_balance N A.

Lemma balance_float (Qs qs : list R) :
  length Qs = N -> length qs = N ->
  vadd (vsub (dotT N A (map fin Qs)) (map fin Qs)) (map fin qs)
  = map fin (balance Qs qs).
Proof.
  intros HQ Hq.
  apply (nth_ext _ _ NaN NaN).
  - rewrite vadd_length, vsub_length, dotT_length, !length_map.
    unfold balance, network_balance. rewrite ?length_map, ?length_seq. lia.
  - intros j Hj.
    rewrite vadd_length, vsub_length, dotT_length, !length_map in Hj.
    rewrite nth_vadd by (rewrite ?vsub_length, ?dotT_length, ?length_map; lia).
    rewrite nth_vsub by (rewrite ?dotT_length, ?length_map; lia).
    rewrite nth_dotT by lia.
    rewrite !nth_map_fin by lia.
    rewrite nth_map_fin by (unfold balance, network_balance; rewrite ?length_map, ?length_seq; lia).
    replace (map (fun i => fmul (fin (A i j)) (nth i (map fin Qs) NaN)) (seq 0 N))
      with (map fin (map (fun i => A i j * nth i Qs 0) (seq 0 N))).
    + rewrite fsum_fin. cbn [fsub fadd lift2]. f_equal.
      unfold balance, network_balance.
      set (f := fun j => _ - _ + _).
      rewrite (nth_indep (map f (seq 0 N)) 0 (f 0%nat))
        by (rewrite ?length_map, ?length_seq; lia).
      rewrite (map_nth f), seq_nth by lia. reflexivity.
    + rewrite map_map. apply map_ext_in. intros i Hi. apply in_seq in Hi.
      now rewrite nth_map_fin by lia.
Qed.

Lemma balance_sum (Qs qs : list R) :
  length Qs = N -> length qs = N ->
  rsum (balance Qs qs) = rsum qs - outlet_discharge N A Qs.
Proof.
  intros HQ Hq. unfold balance, network_balance, outlet_discharge.
  rewrite (rsum_as_nth qs), Hq.
  rewrite (rsum_plus (fun j => _ - _)).
  assert (H : rsum (map (fun j => rsum (map (fun i => A i j * nth i Qs 0) (seq 0 N))
                                  - nth j Qs 0) (seq 0 N))
              = - rsum (map (fun i => if row_is_zero N A i then nth i Qs 0 else 0)
                            (seq 0 N))); [|lra].
  replace (rsum (map (fun j => rsum (map (fun i => A i j * nth i Qs 0) (seq 0 N))
                               - nth j Qs 0) (seq 0 N)))
    with (rsum (map (fun j => rsum (map (fun i => A i j * nth i Qs 0) (seq 0 N)))
                    (seq 0 N))
          + rsum (map (fun j => - nth j Qs 0) (seq 0 N)))
    by (rewrite <- rsum_plus; apply rsum_ext; intros; lra).
  rewrite (rsum_swap (fun i j => A i j * nth i Qs 0)).
  rewrite <- rsum_plus.
  replace (- rsum (map (fun i => if row_is_zero N A i then nth i Qs 0 else 0) (seq 0 N)))
    with (rsum (map (fun i => (if row_is_zero N A i then nth i Qs 0 else 0) * -1)
                    (seq 0 N)))
    by (rewrite rsum_scal; lra).
  apply rsum_ext. intros i Hi.
  rewrite rsum_scal, row_sum by assumption.
  destruct (row_is_zero N A i); lra.
Qed.

End Balance.

(** C10: when every row of the adjacency matrix has at most one nonzero
    entry, the balance [Adj.T.dot(Q) - Q + q] of a discharge vector [Q] and
    an inflow vector [q] is the vector [network_balance], whose components
    sum to the total inflow minus the discharge of the outlets, the segments
    whose row of [Adj] is zero; with zero inflow the sum is minus the outlet
    discharge.  The right-hand side of the numerical model returns this
    vector, and the right-hand side of the hysteresis model, in a session
    where [cst_lambda] is bound, returns it as its volume part, after the
    [N] height derivatives. *)
Theorem network_balance_mass
    (N : nat) (TONODE FROMNODE : nat -> Z) (Qs qs : list R) :
  (forall i j j', (i < N)%nat -> (j < N)%nat -> (j' < N)%nat ->
     Numerical.Adj TONODE FROMNODE i j <> 0 ->
     Numerical.Adj TONODE FROMNODE i j' <> 0 -> j = j') ->
  length Qs = N -> length qs = N ->
  let A := Numerical.Adj TONODE FROMNODE in
  let D := network_balance N A Qs qs in
  vadd (vsub (dotT N A (map fin Qs)) (map fin Qs)) (map fin qs) = map fin D /\
  rsum D = rsum qs - outlet_discharge N A Qs /\
  (rsum qs = 0 -> rsum D = - outlet_discharge N A Qs) /\
  (forall rainvals l S w h_l h_u k hcrit t V,
     Numerical.Qvals N l S w h_l h_u k hcrit V = map fin Qs ->
     map (fun i => Numerical.rainfun rainvals (t * Numerical.cst_t) i
                   / Numerical.cst_Q) (seq 0 N) = qs ->
     Numerical.derivative N A rainvals l S w h_l h_u k hcrit t V = map fin D) /\
  (forall rainvals l S w h_l h_u k hcrit lam t X,
     Hysteresis.fun_Q N S w h_l h_u k hcrit (firstn N X) = map fin Qs ->
     map (fun i => Hysteresis.rainfun rainvals (t * Hysteresis.cst_t) i
                   / Hysteresis.cst_Q) (seq 0 N) = qs ->
     exists D1,
       length D1 = N /\
       Hysteresis.derivative N (Hysteresis.Adj TONODE FROMNODE) rainvals
         l S w h_l h_u k hcrit (Some lam) t X
       = Returned (D1 ++ map fin D)).
Proof.
  intros Hone HQ Hq A D.
  pose proof (balance_float N TONODE FROMNODE Qs qs HQ Hq) as Hfl.
  pose proof (balance_sum N TONODE FROMNODE Hone Qs qs HQ Hq) as Hsum.
  fold A in Hfl, Hsum. fold D in Hfl, Hsum.
  split; [exact Hfl|]. split; [exact Hsum|]. split; [intros H0; lra|]. split.
  - intros rainvals l S w h_l h_u k hcrit t V HQv Hrain.
    unfold Numerical.derivative. cbv zeta. rewrite HQv.
    replace (map (fun i => fin (Numerical.rainfun rainvals (t * Numerical.cst_t) i
                                / Numerical.cst_Q)) (seq 0 N))
      with (map fin qs) by (rewrite <- Hrain, map_map; reflexivity).
    exact Hfl.
  - intros rainvals l S w h_l h_u k hcrit lam t X HQv Hrain.
    unfold Hysteresis.derivative, Hysteresis.fun_hV. cbv zeta.
    destruct (hysteresis_D1_bound N l S w h_l h_u k hcrit lam (firstn N X)
                (skipn N X)) as [D1 [HD1 Hlen]].
    exists D1. split; [exact Hlen|].
    cbn [Hysteresis.jit_Vfun bind]. rewrite HD1. cbn [bind]. rewrite HQv.
    do 2 f_equal.
    replace (map (fun i => fin (Hysteresis.rainfun rainvals (t * Hysteresis.cst_t) i
                                / Hysteresis.cst_Q)) (seq 0 N))
      with (map fin qs) by (rewrite <- Hrain, map_map; reflexivity).
    exact Hfl.
Qed.

Lemma Example_one_downstream (i j j' : nat) :
  (i < Example.N)%nat -> (j < Example.N)%nat -> (j' < Example.N)%nat ->
  Numerical.Adj Example.TONODE Example.FROMNODE i j <> 0 ->
  Numerical.Adj Example.TONODE Example.FROMNODE i j' <> 0 -> j = j'.
Proof.
  unfold Example.N, Numerical.Adj. intros Hi Hj Hj'.
  destruct i as [|[|[|i]]]; try lia;
    destruct j as [|[|[|j]]]; try lia;
    destruct j' as [|[|[|j']]]; try lia;
    simpl; intros H1 H2; try reflexivity; exfalso;
    try (now apply H1); try (now apply H2).
Qed.

Lemma network_balance_mass_witness :
  rsum (network_balance Example.N (Numerical.Adj Example.TONODE Example.FROMNODE)
          [1; 2; 3] [0; 0; 0])
  = rsum [0; 0; 0]
    - outlet_discharge Example.N (Numerical.Adj Example.TONODE Example.FROMNODE)
        [1; 2; 3].
Proof.
  apply (network_balance_mass Example.N Example.TONODE Example.FROMNODE
           [1; 2; 3] [0; 0; 0] Example_one_downstream eq_refl eq_refl).
Defined.

(** * Further properties of the notebooks *)

(** ** The rain function reads quarter-hour bins *)

Lemma Int_part_IZR (z : Z) : Int_part (IZR z) = z.
Proof. symmetry. apply Int_part_spec. lra. Qed.

Lemma py_int_IZR (z : Z) : py_int (IZR z) = z.
Proof.
  unfold py_int. destruct (Rle_dec 0 (IZR z)) as [H|H].
  - apply Int_part_IZR.
  - rewrite <- opp_IZR, Int_part_IZR. lia.
Qed.

Lemma Int_part_bin (x : R) (n : Z) : IZR n <= x < IZR n + 1 -> Int_part x = n.
Proof. intros H. symmetry. apply Int_part_spec. lra. Qed.

Lemma bin_index (t : R) (n : Z) :
  IZR n * 900 <= t < (IZR n + 1) * 900 ->
  py_int ((t / 60 - fmod (t / 60) 15) / 15) = n.
Proof.
  intros Ht. unfold fmod.
  assert (Hn : Int_part (t / 60 / 15) = n) by (apply Int_part_bin; lra).
  rewrite Hn.
  replace ((t / 60 - (t / 60 - 15 * IZR n)) / 15) with (IZR n) by lra.
  apply py_int_IZR.
Qed.

(** During the [n]th quarter of an hour after the start, counted in seconds,
    [rainfun] of either notebook returns row [n] of the rain table; the bins
    are closed on the left, so row [n + 1] starts exactly at [900 * (n + 1)]
    seconds. *)
Theorem rainfun_bins (rainvals : Z -> nat -> R) (t : R) (n : Z) :
  IZR n * 900 <= t < (IZR n + 1) * 900 ->
  Numerical.rainfun rainvals t = rainvals n /\
  Hysteresis.rainfun rainvals t = rainvals n.
Proof.
  intros Ht. unfold Numerical.rainfun, Hysteresis.rainfun. cbv zeta.
  now rewrite (bin_index t n Ht).
Qed.

Lemma rainfun_bins_witness :
  Numerical.rainfun Example.rainvals 1000 = Example.rainvals 1%Z /\
  Hysteresis.rainfun Example.rainvals 1000 = Example.rainvals 1%Z.
Proof.
  apply (rainfun_bins Example.rainvals 1000 1). lra.
Defined.

(** ** Dam parameters and slopes after the data handling *)

Section Assign.

Variables lower_heights upper_heights kvals : list R.



End Assign.



(** The terrain slope is a number here, as it is in the data.  After the
    sign change and the floor the slope is at least 0.1 in the numerical
    notebook and at least 0.01 in the hysteresis notebook, and the scaled
    slope, the quotient by the scale 0.05, is positive in both: the square
    roots of it and the divisions by it in the discharge and volume
    formulas are taken of a positive number. *)
Theorem scaled_slope_floor (Slope : nat -> R) (i : nat) :
  0.1 <= Numerical.data_S Slope i /\
  0 < Numerical.df_S (Numerical.data_S Slope) i /\
  0.01 <= Hysteresis.data_S Slope i /\
  0 < Hysteresis.df_S (Hysteresis.data_S Slope) i.
Proof.
  unfold Numerical.df_S, Numerical.data_S, Numerical.cst_S,
    Hysteresis.df_S, Hysteresis.data_S, Hysteresis.cst_S. cbv zeta.
  destruct (Rle_dec (Slope i * -1) 0.1); destruct (Rle_dec (Slope i * -1) 0.01);
    repeat split; lra.
Qed.

(** ** The adjacency matrix *)

(** The adjacency matrix holds a 1 exactly where the end node of the row
    segment is the start node of the column segment, and 0 elsewhere.  When
    no two of the [N] segments start at the same node, every row has at most
    one nonzero entry: each segment has at most one downstream segment. *)
Theorem Adj_rows (N : nat) (TONODE FROMNODE : nat -> Z) :
  (forall j j', (j < N)%nat -> (j' < N)%nat -> FROMNODE j = FROMNODE j' -> j = j') ->
  (forall i j, Numerical.Adj TONODE FROMNODE i j = 1 <-> TONODE i = FROMNODE j) /\
  (forall i j, Numerical.Adj TONODE FROMNODE i j = 0 <-> TONODE i <> FROMNODE j) /\
  (forall i j j', (j < N)%nat -> (j' < N)%nat ->
     Numerical.Adj TONODE FROMNODE i j <> 0 ->
     Numerical.Adj TONODE FROMNODE i j' <> 0 -> j = j') /\
  (forall i j, Hysteresis.Adj TONODE FROMNODE i j = Numerical.Adj TONODE FROMNODE i j).
Proof.
  intros Hinj.
  assert (H1 : forall i j, Numerical.Adj TONODE FROMNODE i j = 1
                           <-> TONODE i = FROMNODE j).
  { intros i j. unfold Numerical.Adj.
    destruct (Z.eqb_spec (TONODE i) (FROMNODE j)); split; intros; try lra;
      try reflexivity; try assumption; contradiction. }
  assert (H0 : forall i j, Numerical.Adj TONODE FROMNODE i j = 0
                           <-> TONODE i <> FROMNODE j).
  { intros i j. unfold Numerical.Adj.
    destruct (Z.eqb_spec (TONODE i) (FROMNODE j)); split; intros; try lra;
      try reflexivity; try assumption; contradiction. }
  split; [exact H1|]. split; [exact H0|]. split; [|reflexivity].
  intros i j j' Hj Hj' Hn Hn'. apply Hinj; try assumption.
  assert (TONODE i = FROMNODE j).
  { destruct (Z.eq_dec (TONODE i) (FROMNODE j)) as [E|E]; [exact E|].
    apply H0 in E. contradiction. }
  assert (TONODE i = FROMNODE j').
  { destruct (Z.eq_dec (TONODE i) (FROMNODE j')) as [E|E]; [exact E|].
    apply H0 in E. contradiction. }
  congruence.
Qed.

Lemma Adj_rows_witness :
  (Numerical.Adj Example.TONODE Example.FROMNODE 0 2 = 1
   <-> Example.TONODE 0%nat = Example.FROMNODE 2%nat) /\
  (Numerical.Adj Example.TONODE Example.FROMNODE 2 0 = 0
   <-> Example.TONODE 2%nat <> Example.FROMNODE 0%nat).
Proof.
  assert (Hinj : forall j j', (j < Example.N)%nat -> (j' < Example.N)%nat ->
                   Example.FROMNODE j = Example.FROMNODE j' -> j = j').
  { unfold Example.N, Example.FROMNODE. intros j j' Hj Hj'.
    destruct j as [|[|[|j]]]; try lia; destruct j' as [|[|[|j']]]; try lia;
      intros H; try reflexivity; discriminate H. }
  split.
  - apply (proj1 (Adj_rows Example.N Example.TONODE Example.FROMNODE Hinj)).
  - apply (proj1 (proj2 (Adj_rows Example.N Example.TONODE Example.FROMNODE Hinj))).
Defined.

(** ** The discharge and storage relations *)

(** The friction discharge of the numerical notebook is a number for every
    height from 0 up, it is 0 at height 0, never negative and never
    decreasing in the height (width and slope not negative). *)
Theorem Qfric_monotone (S w : nat -> R) (i : nat) (h1 h2 : R) :
  0 <= w i -> 0 <= S i -> 0 <= h1 <= h2 ->
  exists a b,
    Numerical.Qfric S w (Some h1) i = Some a /\
    Numerical.Qfric S w (Some h2) i = Some b /\
    0 <= a <= b /\
    Numerical.Qfric S w (Some 0) i = Some 0.
Proof.
  intros Hw HS [H1 H12].
  pose proof (sqrt_pos (S i)) as Hs.
  pose proof (rpow_nonneg h1 (5 / 3)) as Hp1.
  pose proof (rpow_le h1 h2 (5 / 3) (conj H1 H12) ltac:(lra)) as Hp.
  exists (w i * rpow h1 (5 / 3) * sqrt (S i)), (w i * rpow h2 (5 / 3) * sqrt (S i)).
  unfold Numerical.Qfric, fin.
  rewrite !fpow_fin by lra. rewrite np_sqrt_fin by assumption.
  repeat split.
  - apply Rmult_le_pos; [apply Rmult_le_pos|]; assumption.
  - apply Rmult_le_compat_r; [assumption|].
    apply Rmult_le_compat_l; assumption.
  - fl_red. rewrite rpow_zero. f_equal. ring.
Qed.

Lemma Qfric_monotone_witness :
  exists a b,
    Numerical.Qfric Example.S Example.w (Some 1) 0 = Some a /\
    Numerical.Qfric Example.S Example.w (Some 2) 0 = Some b /\
    0 <= a <= b /\
    Numerical.Qfric Example.S Example.w (Some 0) 0 = Some 0.
Proof.
  apply (Qfric_monotone Example.S Example.w 0 1 2).
  - rewrite Example_w. lra.
  - rewrite Example_S. lra.
  - lra.
Defined.

Section ZeroHeight.

Variables l S w h_l h_u k : nat -> R.
Variable hcrit : nat -> float.
Variable i : nat.
Hypothesis h_l_pos : 0 < h_l i.
Hypothesis h_u_nonneg : 0 <= h_u i.
Hypothesis S_nonneg : 0 <= S i.

Lemma numerical_Qfric_zero : Numerical.Qfric S w (Some 0) i = Some 0.
Proof.
  unfold Numerical.Qfric, fin. rewrite fpow_fin by lra. rewrite rpow_zero, np_sqrt_fin by assumption.
  fl_red. f_equal. ring.
Qed.

Lemma numerical_Qdam_zero : Numerical.Qdam w h_l h_u k (Some 0) i = Some 0.
Proof.
  unfold Numerical.Qdam, fin. cbv zeta. fl_red.
  rewrite min_fin, max_fin. rewrite !np_sqrt_fin by lra.
  assert (0 < sqrt (0 + h_l i)) by (apply sqrt_lt_R0; lra).
  rewrite fdiv_fin by lra. rewrite Rmax_left by lra. rewrite fpow_fin by lra. rewrite rpow_zero.
  rewrite sqrt_0. fl_red. f_equal. unfold Rdiv. ring.
Qed.

Lemma hysteresis_Qfric1_zero : Hysteresis.Qfric1 S w (Some 0) i = Some 0.
Proof.
  unfold Hysteresis.Qfric1, math_sqrt, fin.
  rewrite fpow_fin by lra. rewrite rpow_zero, np_sqrt_fin by assumption. fl_red. f_equal. ring.
Qed.

Lemma hysteresis_Qdam1_zero : Hysteresis.Qdam1 w h_l h_u k (Some 0) i = Some 0.
Proof.
  unfold Hysteresis.Qdam1, fin. cbv zeta. fl_red.
  rewrite min_fin, max_fin. rewrite !np_sqrt_fin by lra.
  assert (0 < sqrt (0 + h_l i)) by (apply sqrt_lt_R0; lra).
  rewrite fdiv_fin by lra. rewrite Rmax_left by lra. rewrite fpow_fin by lra. rewrite rpow_zero.
  rewrite sqrt_0. fl_red. f_equal. unfold Rdiv. ring.
Qed.

Lemma hysteresis_Qdam_zero : Hysteresis.Qdam w h_l h_u k (Some 0) i = Some 0.
Proof.
  unfold Hysteresis.Qdam, fin. cbv zeta. fl_red.
  rewrite min_fin, max_fin. rewrite !np_sqrt_fin by lra.
  assert (0 < sqrt (0 + h_l i)) by (apply sqrt_lt_R0; lra).
  rewrite fdiv_fin by lra. rewrite Rmax_left by lra. rewrite fpow_fin by lra. rewrite rpow_zero.
  rewrite sqrt_0. fl_red. f_equal. unfold Rdiv. ring.
Qed.

Lemma numerical_Qfun_zero : Numerical.Qfun S w h_l h_u k hcrit (Some 0) i = Some 0.
Proof.
  unfold Numerical.Qfun.
  destruct (Some 0 <? max (hcrit i) #(h_l i))%fl;
    [apply numerical_Qfric_zero | apply numerical_Qdam_zero].
Qed.

Lemma hysteresis_Qfun_zero : Hysteresis.Qfun S w h_l h_u k hcrit (Some 0) i = Some 0.
Proof.
  unfold Hysteresis.Qfun.
  destruct (Some 0 <? max (hcrit i) #(h_l i))%fl;
    [exact hysteresis_Qfric1_zero | apply hysteresis_Qdam_zero].
Qed.

End ZeroHeight.

(** Height 0 is a root of the function whose root is searched for the
    critical height, in both notebooks and for every segment with a positive
    lower dam height, a non-negative upper dam height and a non-negative
    slope; and whatever critical height the search returned, also NaN, the
    dispatched discharge at height 0 is 0. *)
Theorem zero_height_is_root
    (S w h_l h_u k : nat -> R) (hcrit : nat -> float) (i : nat) :
  0 < h_l i -> 0 <= h_u i -> 0 <= S i ->
  Numerical.fun_ S w h_l h_u k i (Some 0) = Some 0 /\
  Hysteresis.fun_ S w h_l h_u k i (Some 0) = Some 0 /\
  Numerical.Qfun S w h_l h_u k hcrit (Some 0) i = Some 0 /\
  Hysteresis.Qfun S w h_l h_u k hcrit (Some 0) i = Some 0.
Proof.
  intros Hl Hu HS. repeat split.
  - unfold Numerical.fun_. cbv zeta.
    rewrite numerical_Qfric_zero, numerical_Qdam_zero by assumption.
    fl_red. f_equal. ring.
  - unfold Hysteresis.fun_. cbv zeta.
    rewrite hysteresis_Qfric1_zero, hysteresis_Qdam1_zero by assumption.
    fl_red. f_equal. ring.
  - now apply numerical_Qfun_zero.
  - now apply hysteresis_Qfun_zero.
Qed.

Lemma zero_height_is_root_witness :
  Numerical.fun_ Example.S Example.w Example.h_l Example.h_u Example.k 1 (Some 0)
    = Some 0 /\
  Hysteresis.fun_ Example.S Example.w Example.h_l Example.h_u Example.k 1 (Some 0)
    = Some 0 /\
  Numerical.Qfun Example.S Example.w Example.h_l Example.h_u Example.k
    Example.hcrit (Some 0) 1 = Some 0 /\
  Hysteresis.Qfun Example.S Example.w Example.h_l Example.h_u Example.k
    Example.hcrit (Some 0) 1 = Some 0.
Proof.
  apply (zero_height_is_root Example.S Example.w Example.h_l Example.h_u
           Example.k Example.hcrit 1).
  - rewrite Example_h_l_dam. lra.
  - rewrite Example_h_u_dam. lra.
  - rewrite Example_S. lra.
Defined.

Lemma hysteresis_cst_beta : Hysteresis.cst_beta = 1 / 5.
Proof.
  unfold Hysteresis.cst_beta, Hysteresis.cst_h, Hysteresis.cst_S, Hysteresis.cst_l.
  replace (0.05 * 100) with 5 by lra. reflexivity.
Qed.

Lemma hysteresis_Qfun_friction
    (S w h_l h_u k : nat -> R) (hcrit : nat -> float) (i : nat) (h : R) :
  0 <= S i -> 0 <= h ->
  flt (Some h) (max (hcrit i) (Some (h_l i))) = true ->
  Hysteresis.Qfun S w h_l h_u k hcrit (Some h) i
  = Some (w i * rpow h (5/3) * sqrt (S i)).
Proof.
  intros HS Hh Hlt. unfold Hysteresis.Qfun. unfold fin. rewrite Hlt.
  unfold Hysteresis.Qfric, math_sqrt, fin.
  rewrite fpow_fin by assumption. rewrite np_sqrt_fin by assumption.
  reflexivity.
Qed.

Lemma hysteresis_Vfun_friction
    (l S w h_l h_u k : nat -> R) (hcrit : nat -> float) (lam : nat -> R)
    (i : nat) (h : R) :
  0 < w i -> 0 < S i -> 0 < l i -> 0 <= h ->
  flt (Some h) (max (hcrit i) (Some (h_l i))) = true ->
  Hysteresis.Vfun l S w h_l h_u k hcrit (Some lam) (Some h) i
  = Returned (Some (w i * l i * h)).
Proof.
  intros Hw HS Hl Hh Hlt. unfold Hysteresis.Vfun.
  rewrite hysteresis_Qfun_friction by (try assumption; lra).
  assert (Hs : 0 < sqrt (S i)) by (now apply sqrt_lt_R0).
  unfold fin. rewrite fdiv_fin by lra. rewrite np_sqrt_fin by lra.
  rewrite fdiv_fin by lra.
  replace (w i * rpow h (5 / 3) * sqrt (S i) / w i / sqrt (S i))
    with (rpow h (5 / 3)) by (field; lra).
  rewrite fpow_fin by apply rpow_nonneg.
  rewrite rpow_inverse by (try assumption; lra).
  fl_red. rewrite hysteresis_cst_beta.
  rewrite flt_true.
  2:{ assert (0 < S i * l i / (1 / 5)); [|lra].
      apply Rdiv_lt_0_compat; [apply Rmult_lt_0_compat; assumption | lra]. }
  cbn [Hysteresis.read_cst_lambda bind].
  rewrite max_fin. fl_red. rewrite fdiv_fin by lra. fl_red.
  do 2 f_equal. rewrite Rmax_left by lra. field. lra.
Qed.

(** Below the regime switch, that is for a height from 0 up that is less
    than [max(hcrit, h_l)], and for a segment of positive width, slope and
    length, both notebooks give the friction discharge
    [w * h^(5/3) * sqrt(S)], and the numerical notebook gives the plain
    channel volume [w * l * h].  [Vfun] of the hysteresis notebook raises
    [NameError] as committed, where [cst_lambda] is unbound; in a session
    that binds the name, to whatever array, it returns [w * l * h] too: the
    downstream height [hstr] is the height itself and the dam term of the
    storage, the only one that reads [cst_lambda], vanishes. *)
Theorem friction_regime
    (l S w h_l h_u k : nat -> R) (hcrit : nat -> float) (i : nat) (h : R) :
  0 < w i -> 0 < S i -> 0 < l i -> 0 <= h ->
  flt (Some h) (max (hcrit i) (Some (h_l i))) = true ->
  Numerical.Qfun S w h_l h_u k hcrit (Some h) i
    = Some (w i * rpow h (5/3) * sqrt (S i)) /\
  Numerical.Vfun l S w h_l h_u k hcrit (Some h) i = Some (w i * l i * h) /\
  Hysteresis.Qfun S w h_l h_u k hcrit (Some h) i
    = Some (w i * rpow h (5/3) * sqrt (S i)) /\
  Hysteresis.Vfun l S w h_l h_u k hcrit None (Some h) i = Raised NameError /\
  (forall lam,
     Hysteresis.Vfun l S w h_l h_u k hcrit (Some lam) (Some h) i
     = Returned (Some (w i * l i * h))).
Proof.
  intros Hw HS Hl Hh Hlt. repeat split.
  - apply numerical_Qfun_friction; assumption.
  - apply numerical_Vfun_friction; assumption.
  - apply hysteresis_Qfun_friction; try assumption; lra.
  - apply hysteresis_Vfun_unbound.
  - intros lam. apply hysteresis_Vfun_friction; assumption.
Qed.

Lemma friction_regime_witness :
  Numerical.Qfun Example.S Example.w Example.h_l Example.h_u Example.k
    Example.hcrit (Some 1) 0
    = Some (Example.w 0%nat * rpow 1 (5/3) * sqrt (Example.S 0%nat)) /\
  Numerical.Vfun Example.l Example.S Example.w Example.h_l Example.h_u Example.k
    Example.hcrit (Some 1) 0
    = Some (Example.w 0%nat * Example.l 0%nat * 1) /\
  Hysteresis.Qfun Example.S Example.w Example.h_l Example.h_u Example.k
    Example.hcrit (Some 1) 0
    = Some (Example.w 0%nat * rpow 1 (5/3) * sqrt (Example.S 0%nat)) /\
  Hysteresis.Vfun Example.l Example.S Example.w Example.h_l Example.h_u Example.k
    Example.hcrit None (Some 1) 0
    = Raised NameError /\
  (forall lam,
     Hysteresis.Vfun Example.l Example.S Example.w Example.h_l Example.h_u
       Example.k Example.hcrit (Some lam) (Some 1) 0
     = Returned (Some (Example.w 0%nat * Example.l 0%nat * 1))).
Proof.
  apply (friction_regime Example.l Example.S Example.w Example.h_l Example.h_u
           Example.k Example.hcrit 0 1).
  - rewrite Example_w. lra.
  - rewrite Example_S. lra.
  - rewrite Example_l. lra.
  - lra.
  - apply Example_friction. lra.
Defined.

(** ** The two dam discharges of the hysteresis notebook *)

Section TwoDamDischarges.

Variables w h_l h_u k : nat -> R.
Variable i : nat.

(** What the two functions share: the leakage and permeable-body terms. *)
Let shared (v : R) : float :=
  ((#(h_l i) * Some v / np_sqrt (Some v + #(h_l i)))
   + (#(k i) * np_sqrt (Some v) * min (Some v - #(h_l i)) (#(h_u i) - #(h_l i))))%fl.

Lemma Qdam1_shape (v : R) :
  Hysteresis.Qdam1 w h_l h_u k (Some v) i
  = match shared v with
    | Some s => Some (Hysteresis.cst_gamma * w i
                      * (s + 2 / 3 * rpow (Rmax 0 (v - h_u i)) (3 / 2)))
    | None => None
    end.
Proof.
  unfold Hysteresis.Qdam1. cbv zeta.
  replace (max #0 (Some v - #(h_u i)))%fl with (Some (Rmax 0 (v - h_u i)))
    by (symmetry; apply max_fin).
  rewrite fpow_fin by apply Rmax_l.
  change (#(h_l i) * Some v / np_sqrt (Some v + #(h_l i))
          + #(k i) * np_sqrt (Some v) * min (Some v - #(h_l i)) (#(h_u i) - #(h_l i)))%fl
    with (shared v).
  destruct (shared v) as [s|]; reflexivity.
Qed.

Lemma Qdam_shape (v : R) :
  Hysteresis.Qdam w h_l h_u k (Some v) i
  = match shared v with
    | Some s => Some (Hysteresis.cst_gamma * w i
                      * (s + 0.6 * 2 / 3 * rpow (Rmax 0 (v - h_u i)) (3 / 2)))
    | None => None
    end.
Proof.
  unfold Hysteresis.Qdam. cbv zeta.
  replace (max #0 (Some v - #(h_u i)))%fl with (Some (Rmax 0 (v - h_u i)))
    by (symmetry; apply max_fin).
  rewrite fpow_fin by apply Rmax_l.
  change (#(h_l i) * Some v / np_sqrt (Some v + #(h_l i))
          + #(k i) * np_sqrt (Some v) * min (Some v - #(h_l i)) (#(h_u i) - #(h_l i)))%fl
    with (shared v).
  destruct (shared v) as [s|]; reflexivity.
Qed.

End TwoDamDischarges.

(** In the hysteresis notebook the dam discharge that the root search uses
    and the one that the dispatcher uses are the same function up to the
    upper dam height; above it, where both are numbers, the first exceeds
    the second by [cst_gamma * w * 4/15 * (h - h_u)^(3/2)]. *)
Theorem Qdam1_against_Qdam (w h_l h_u k : nat -> R) (i : nat) (v : R) :
  (v <= h_u i ->
   Hysteresis.Qdam1 w h_l h_u k (Some v) i = Hysteresis.Qdam w h_l h_u k (Some v) i) /\
  (h_u i < v ->
   forall a, Hysteresis.Qdam1 w h_l h_u k (Some v) i = Some a ->
     exists b,
       Hysteresis.Qdam w h_l h_u k (Some v) i = Some b /\
       a - b = Hysteresis.cst_gamma * w i * (4 / 15) * Rpower (v - h_u i) (3 / 2)).
Proof.
  rewrite Qdam1_shape, Qdam_shape. cbv zeta.
  match goal with |- context [match ?e with Some _ => _ | None => _ end] =>
    set (shared := e) end.
  split.
  - intros Hv. rewrite Rmax_left by lra. rewrite rpow_zero.
    destruct shared as [s|]; [|reflexivity]. f_equal. lra.
  - intros Hv a. rewrite Rmax_right by lra. rewrite rpow_pos by lra.
    destruct shared as [s|]; [|discriminate].
    intros Ha. injection Ha as <-.
    eexists. split; [reflexivity|]. lra.
Qed.

Lemma Qdam1_against_Qdam_witness :
  Hysteresis.Qdam1 ExampleH.w ExampleH.h_l ExampleH.h_u ExampleH.k (Some (1 / 2)) 0
  = Hysteresis.Qdam ExampleH.w ExampleH.h_l ExampleH.h_u ExampleH.k (Some (1 / 2)) 0 /\
  exists b,
    Hysteresis.Qdam ExampleH.w ExampleH.h_l ExampleH.h_u ExampleH.k (Some 1) 0
      = Some b /\
    sqrt 2 * (8477 / 24000) - b
    = Hysteresis.cst_gamma * ExampleH.w 0%nat * (4 / 15)
      * Rpower (1 - ExampleH.h_u 0%nat) (3 / 2).
Proof.
  split.
  - apply (proj1 (Qdam1_against_Qdam ExampleH.w ExampleH.h_l ExampleH.h_u
                    ExampleH.k 0 (1 / 2))).
    rewrite ExampleH_h_u. lra.
  - apply (proj2 (Qdam1_against_Qdam ExampleH.w ExampleH.h_l ExampleH.h_u
                    ExampleH.k 0 1)).
    + rewrite ExampleH_h_u. lra.
    + exact ExampleH_Qdam1.
Defined.

(** ** The storage table against the raw storage *)

(** Every entry of the storage table is a number that is not negative and
    not below the raw storage of its own grid height, when that is a
    number; it is either 0 or the raw storage of a grid height at or below
    its own.  So a raw storage that is negative or NaN never enters the
    table. *)
Theorem Vapprox_dominates
    (l S w h_l h_u k : nat -> R) (hcrit : nat -> float) (i j : nat) :
  (j < 100)%nat ->
  exists x,
    nth j (Numerical.Vapprox l S w h_l h_u k hcrit i) NaN = Some x /\
    0 <= x /\
    (forall v, Numerical.Vfun l S w h_l h_u k hcrit (Some (nth j Numerical.grid 0)) i
               = Some v -> v <= x) /\
    (x = 0 \/
     exists j', (j' <= j)%nat /\
       Numerical.Vfun l S w h_l h_u k hcrit (Some (nth j' Numerical.grid 0)) i
       = Some x).
Proof.
  intros Hj. unfold Numerical.Vapprox.
  set (f := fun h : R => Numerical.Vfun l S w h_l h_u k hcrit #h i).
  assert (Hnth : forall n, (n < 100)%nat ->
                   nth n (map f Numerical.grid) NaN = f (nth n Numerical.grid 0)).
  { intros n Hn.
    rewrite (nth_indep _ NaN (f 0)) by (now rewrite length_map, grid_length).
    apply (map_nth f). }
  destruct (running_max_attained (map f Numerical.grid) 0 j)
    as [x [Hx [H0 [Hdom Hatt]]]]; [now rewrite length_map, grid_length|].
  exists x. split; [exact Hx|]. split; [exact H0|]. split.
  - intros v Hv. apply Hdom. rewrite Hnth by assumption. exact Hv.
  - destruct Hatt as [->|[j' [Hj' Hatt]]]; [now left | right].
    exists j'. split; [exact Hj'|]. rewrite Hnth in Hatt by lia. exact Hatt.
Qed.

Lemma Vapprox_dominates_witness :
  exists x,
    nth 5 (Numerical.Vapprox Example.l Example.S Example.w Example.h_l Example.h_u
             Example.k Example.hcrit 1) NaN = Some x /\
    0 <= x.
Proof.
  destruct (Vapprox_dominates Example.l Example.S Example.w Example.h_l Example.h_u
              Example.k Example.hcrit 1 5 ltac:(lia)) as [x [Hx [H0 _]]].
  exists x. split; assumption.
Defined.

(** ** The table lookup inside a cell *)

(** A volume strictly between two neighbouring tabulated volumes is looked
    up to the chord of the two tabulated discharges, when these are numbers:
    the result lies between them and never overshoots the table. *)
Theorem lookup_between_neighbours
    (l S w h_l h_u k : nat -> R) (hcrit : nat -> float) (i j : nat)
    (a b p q v : R) :
  (j + 1 < 100)%nat ->
  nth j (Numerical.Vapprox l S w h_l h_u k hcrit i) NaN = Some a ->
  nth (j + 1) (Numerical.Vapprox l S w h_l h_u k hcrit i) NaN = Some b ->
  nth j (Numerical.Qapprox S w h_l h_u k hcrit i) NaN = Some p ->
  nth (j + 1) (Numerical.Qapprox S w h_l h_u k hcrit i) NaN = Some q ->
  a < v < b ->
  exists r,
    Numerical.qfunexp l S w h_l h_u k hcrit (Some v) i = Some r /\
    r = p + (v - a) / (b - a) * (q - p) /\
    Rmin p q <= r <= Rmax p q.
Proof.
  intros Hj Ha Hb Hp Hq Hv. unfold Numerical.qfunexp.
  rewrite (interp_cell _ _ j a b p q v); try assumption.
  - set (s := (v - a) / (b - a)).
    assert (Hs : 0 < s < 1).
    { unfold s. split.
      - apply Rdiv_lt_0_compat; lra.
      - apply Rmult_lt_reg_r with (b - a); [lra|].
        unfold Rdiv. rewrite Rmult_assoc, Rinv_l by lra. lra. }
    exists (p + s * (q - p)). split; [|split; [reflexivity|]].
    + f_equal. unfold s. field. lra.
    + unfold Rmin, Rmax. destruct (Rle_dec p q); split; nra.
  - apply Vapprox_sorted.
Qed.

Lemma lookup_between_neighbours_witness :
  exists r,
    Numerical.qfunexp Example.l Example.S Example.w Example.h_l Example.h_u
      Example.k Example.hcrit (Some 1) 0 = Some r.
Proof.
  destruct (lookup_between_neighbours Example.l Example.S Example.w Example.h_l
              Example.h_u Example.k Example.hcrit 0 0
              (16 * (INR 0 * (20 / 99))) (16 * (INR 1 * (20 / 99)))
              (32 * rpow (INR 0 * (20 / 99)) (5 / 3))
              (32 * rpow (INR 1 * (20 / 99)) (5 / 3)) 1)
    as [r [Hr _]].
  - lia.
  - now rewrite Example_Vapprox by lia.
  - now rewrite Example_Vapprox by lia.
  - now rewrite Example_Qapprox by lia.
  - now rewrite Example_Qapprox by lia.
  - simpl. lra.
  - now exists r.
Defined.

(** ** The dam fill fraction grows with the state value *)

(** For a dam with [h_l < h_u] the fill fraction never decreases when the
    state value grows, and it is 1 from [h_u] on. *)
Theorem dam_fill_monotone (h_l h_u : nat -> R) (dam : nat) (x1 x2 : R) :
  h_l dam < h_u dam -> x1 <= x2 ->
  exists r1 r2,
    Numerical.dam_fill h_l h_u dam (Some x1) = Some r1 /\
    Numerical.dam_fill h_l h_u dam (Some x2) = Some r2 /\
    r1 <= r2 /\
    (h_u dam <= x2 -> r2 = 1).
Proof.
  intros Hlu Hx.
  destruct (dam_fill_cases h_l h_u dam (Some x1) Hlu) as [r1 [Hr1 [Hb1 [Hz1 Hm1]]]].
  destruct (dam_fill_cases h_l h_u dam (Some x2) Hlu) as [r2 [Hr2 [Hb2 [Hz2 Hm2]]]].
  exists r1, r2. split; [exact Hr1|]. split; [exact Hr2|].
  assert (Hd : 0 < / (h_u dam - h_l dam)) by (apply Rinv_0_lt_compat; lra).
  split.
  - destruct (Rle_dec x1 (h_l dam)) as [H1|H1].
    + rewrite (Hz1 x1 eq_refl H1). lra.
    + rewrite (Hm1 x1 eq_refl ltac:(lra)), (Hm2 x2 eq_refl ltac:(lra)).
      apply Rle_min_compat_l. unfold Rdiv.
      apply Rmult_le_compat_r; lra.
  - intros Hu. rewrite (Hm2 x2 eq_refl ltac:(lra)).
    apply Rmin_left. unfold Rdiv.
    apply Rmult_le_reg_r with (h_u dam - h_l dam); [lra|].
    rewrite Rmult_assoc, Rinv_l by lra. lra.
Qed.

Lemma dam_fill_monotone_witness :
  exists r1 r2,
    Numerical.dam_fill Example.h_l Example.h_u 1 (Some 1) = Some r1 /\
    Numerical.dam_fill Example.h_l Example.h_u 1 (Some 3) = Some r2 /\
    r1 <= r2 /\
    (Example.h_u 1%nat <= 3 -> r2 = 1).
Proof.
  apply (dam_fill_monotone Example.h_l Example.h_u 1 1 3).
  - rewrite Example_h_l_dam, Example_h_u_dam. lra.
  - lra.
Defined.

(** ** The right-hand sides at the zero state *)

Lemma running_max_nth0 (vs : list float) (r v0 : R) :
  nth 0 vs NaN = Some v0 ->
  nth 0 (Numerical.running_max (Some r) vs) NaN = Some (Rmax r v0).
Proof.
  destruct vs as [|v vs]; simpl; [discriminate|].
  intros ->. apply max_fin.
Qed.

Lemma running_max_nth1 (vs : list float) (r v0 v1 : R) :
  nth 0 vs NaN = Some v0 -> nth 1 vs NaN = Some v1 ->
  nth 1 (Numerical.running_max (Some r) vs) NaN = Some (Rmax (Rmax r v0) v1).
Proof.
  destruct vs as [|v [|v' vs]]; simpl; try discriminate.
  intros -> ->. now rewrite !max_fin.
Qed.

Lemma dotT_zero (N : nat) (A : nat -> nat -> R) (Q : list float) (j : nat) :
  (j < N)%nat ->
  (forall i, (i < N)%nat -> nth i Q NaN = Some 0) ->
  nth j (dotT N A Q) NaN = Some 0.
Proof.
  intros Hj HQ. rewrite nth_dotT by assumption.
  replace (map (fun i => fmul (fin (A i j)) (nth i Q NaN)) (seq 0 N))
    with (map fin (map (fun i => A i j * 0) (seq 0 N))).
  - rewrite fsum_fin. f_equal. apply rsum_zero. intros; ring.
  - rewrite map_map. apply map_ext_in. intros i Hi. apply in_seq in Hi.
    now rewrite HQ by lia.
Qed.

Lemma nth_repeat_lt {A : Type} (a d : A) (n i : nat) :
  (i < n)%nat -> nth i (repeat a n) d = a.
Proof.
  intros Hi. rewrite (nth_indep _ d a) by (now rewrite repeat_length).
  apply nth_repeat.
Qed.

Section ZeroStateNumerical.

Variable N : nat.
Variable Adj : nat -> nat -> R.
Variable rainvals : Z -> nat -> R.
Variables l S w h_l h_u k : nat -> R.
Variable hcrit : nat -> float.

Hypothesis segments_ok :
  forall i, (i < N)%nat ->
    0 < w i /\ 0 < S i /\ 0 < l i /\
    flt (Some (20 / 99)) (max (hcrit i) (Some (h_l i))) = true.

Lemma numerical_Qvals_zero (i : nat) :
  (i < N)%nat ->
  nth i (Numerical.Qvals N l S w h_l h_u k hcrit (repeat (fin 0) N)) NaN = Some 0.
Proof.
  intros Hi. destruct (segments_ok i Hi) as [Hw [HS [Hl Hfr]]].
  assert (Hfr0 : flt (Some 0) (max (hcrit i) (Some (h_l i))) = true).
  { destruct (flt_inv _ _ Hfr) as [x [y [Hx [Hy Hxy]]]].
    injection Hx as <-. rewrite Hy. apply flt_true. lra. }
  rewrite Qvals_nth by assumption. rewrite nth_repeat_lt by assumption.
  set (f := fun h : R => Numerical.Vfun l S w h_l h_u k hcrit #h i).
  assert (Hf0 : nth 0 (map f Numerical.grid) NaN = Some 0).
  { rewrite (nth_indep _ NaN (f 0)) by (rewrite length_map, grid_length; lia).
    rewrite (map_nth f), grid_nth by lia. unfold f, fin.
    simpl INR. rewrite Rmult_0_l.
    rewrite numerical_Vfun_friction by (try assumption; lra).
    f_equal. ring. }
  assert (Hf1 : nth 1 (map f Numerical.grid) NaN = Some (w i * l i * (20 / 99))).
  { rewrite (nth_indep _ NaN (f 0)) by (rewrite length_map, grid_length; lia).
    rewrite (map_nth f), grid_nth by lia. unfold f, fin.
    simpl INR. rewrite Rmult_1_l.
    now rewrite numerical_Vfun_friction by (try assumption; lra). }
  assert (Hpos : 0 < w i * l i * (20 / 99)).
  { apply Rmult_lt_0_compat; [apply Rmult_lt_0_compat; assumption | lra]. }
  unfold fin.
  rewrite (interp_node _ _ 0 0).
  - rewrite Qapprox_nth, grid_nth by lia. simpl INR. rewrite Rmult_0_l.
    rewrite numerical_Qfun_friction by (try assumption; lra).
    rewrite rpow_zero. f_equal. ring.
  - apply Vapprox_sorted.
  - rewrite Vapprox_length. lia.
  - unfold Numerical.Vapprox. fold f. unfold fin.
    rewrite (running_max_nth0 _ 0 0 Hf0). f_equal. now rewrite Rmax_left by lra.
  - intros _. exists (w i * l i * (20 / 99)). split; [|exact Hpos].
    change (0 + 1)%nat with 1%nat.
    unfold Numerical.Vapprox. fold f. unfold fin.
    rewrite (running_max_nth1 _ 0 0 _ Hf0 Hf1). f_equal.
    rewrite (Rmax_left 0 0) by lra. now rewrite Rmax_right by lra.
Qed.

End ZeroStateNumerical.

(** At the all-zero state the numerical right-hand side looks up discharge 0
    for every segment and returns the scaled inflow of the time, so with no
    rain the zero state is at rest.  The segments have positive width, slope
    and length and are still in the friction regime at the first grid height
    above 0, 20/99. *)
Theorem zero_state_numerical
    (N : nat) (Adj : nat -> nat -> R) (rainvals : Z -> nat -> R)
    (l S w h_l h_u k : nat -> R) (hcrit : nat -> float) (t : R) (j : nat) :
  (forall i, (i < N)%nat ->
     0 < w i /\ 0 < S i /\ 0 < l i /\
     flt (Some (20 / 99)) (max (hcrit i) (Some (h_l i))) = true) ->
  (j < N)%nat ->
  nth j (Numerical.Qvals N l S w h_l h_u k hcrit (repeat (fin 0) N)) NaN = Some 0 /\
  nth j (Numerical.derivative N Adj rainvals l S w h_l h_u k hcrit t
           (repeat (fin 0) N)) NaN
  = Some (Numerical.rainfun rainvals (t * Numerical.cst_t) j / Numerical.cst_Q).
Proof.
  intros Hok Hj.
  pose proof (numerical_Qvals_zero N l S w h_l h_u k hcrit Hok) as HQ.
  split; [now apply HQ|].
  unfold Numerical.derivative. cbv zeta.
  set (Q := Numerical.Qvals N l S w h_l h_u k hcrit (repeat (fin 0) N)) in *.
  assert (HQlen : length Q = N)
    by (unfold Q, Numerical.Qvals; now rewrite length_map, length_seq).
  rewrite nth_vadd.
  2:{ rewrite vsub_length, dotT_length, HQlen. lia. }
  2:{ now rewrite length_map, length_seq. }
  rewrite nth_vsub by (rewrite ?dotT_length, ?HQlen; lia).
  rewrite dotT_zero by assumption. rewrite HQ by assumption.
  set (f := fun i => fin (Numerical.rainfun rainvals (t * Numerical.cst_t) i
                          / Numerical.cst_Q)).
  rewrite (nth_indep _ NaN (f 0%nat)) by (now rewrite length_map, length_seq).
  rewrite (map_nth f), seq_nth by assumption. unfold f, fin. simpl.
  f_equal. ring.
Qed.

Lemma zero_state_numerical_witness :
  nth 0 (Numerical.Qvals 1 Example.l Example.S Example.w Example.h_l Example.h_u
           Example.k Example.hcrit (repeat (fin 0) 1)) NaN = Some 0 /\
  nth 0 (Numerical.derivative 1 Example.Adj Example.rainvals Example.l Example.S
           Example.w Example.h_l Example.h_u Example.k Example.hcrit 0
           (repeat (fin 0) 1)) NaN
  = Some (Numerical.rainfun Example.rainvals (0 * Numerical.cst_t) 0
          / Numerical.cst_Q).
Proof.
  apply (zero_state_numerical 1 Example.Adj Example.rainvals Example.l Example.S
           Example.w Example.h_l Example.h_u Example.k Example.hcrit 0 0).
  - intros i Hi. assert (i = 0)%nat as -> by lia.
    rewrite Example_w, Example_S, Example_l.
    repeat split; try lra. apply Example_friction. lra.
  - lia.
Defined.

Lemma comprehension_returned {A B : Type} (f : A -> outcome B) (g : A -> B)
    (xs : list A) :
  (forall a, In a xs -> f a = Returned (g a)) ->
  comprehension f xs = Returned (map g xs).
Proof.
  induction xs as [|a xs IH]; intros Hf; [reflexivity|].
  cbn [comprehension map]. rewrite (Hf a) by now left. cbn [bind].
  rewrite IH by (intros b Hb; apply Hf; now right). reflexivity.
Qed.

Lemma hysteresis_Vfun_zero
    (l S w h_l h_u k : nat -> R) (hcrit : nat -> float) (lam : nat -> R) (i : nat) :
  0 < w i -> 0 < S i -> 0 < l i -> 0 < h_l i -> 0 <= h_u i ->
  Hysteresis.Vfun l S w h_l h_u k hcrit (Some lam) (Some 0) i = Returned (Some 0).
Proof.
  intros Hw HS Hl Hhl Hhu. unfold Hysteresis.Vfun.
  rewrite hysteresis_Qfun_zero by (try assumption; lra).
  assert (Hs : 0 < sqrt (S i)) by (now apply sqrt_lt_R0).
  unfold fin. rewrite fdiv_fin by lra. rewrite np_sqrt_fin by lra.
  rewrite fdiv_fin by lra.
  replace (0 / w i / sqrt (S i)) with 0 by (unfold Rdiv; ring).
  rewrite fpow_fin by lra. rewrite rpow_zero.
  fl_red. rewrite hysteresis_cst_beta.
  rewrite flt_true.
  2:{ assert (0 < S i * l i / (1 / 5)); [|lra].
      apply Rdiv_lt_0_compat; [apply Rmult_lt_0_compat; assumption | lra]. }
  cbn [Hysteresis.read_cst_lambda bind].
  rewrite max_fin. fl_red. rewrite fdiv_fin by lra. fl_red.
  do 2 f_equal. rewrite Rmax_left by lra. field. lra.
Qed.

(** The hysteresis right-hand side at the all-zero state of height and
    volume, for segments of positive width, slope, length and lower dam
    height and a non-negative upper dam height; the critical heights do not
    matter.  As committed, with [cst_lambda] unbound, the call raises
    [NameError].  In a session that binds
    [cst_lambda], to whatever array, it returns [N] zeros for the height
    derivatives followed by the scaled inflow of the time for the [N] volume
    derivatives, so with no rain the zero state is at rest. *)
Theorem zero_state_hysteresis
    (N : nat) (Adj : nat -> nat -> R) (rainvals : Z -> nat -> R)
    (l S w h_l h_u k : nat -> R) (hcrit : nat -> float) (t : R) :
  (forall i, (i < N)%nat ->
     0 < w i /\ 0 < S i /\ 0 < l i /\ 0 < h_l i /\ 0 <= h_u i) ->
  Hysteresis.derivative N Adj rainvals l S w h_l h_u k hcrit None t
    (repeat (fin 0) (2 * N)) = Raised NameError /\
  (forall lam,
     Hysteresis.derivative N Adj rainvals l S w h_l h_u k hcrit (Some lam) t
       (repeat (fin 0) (2 * N))
     = Returned
         (repeat (fin 0) N
          ++ map (fun j => fin (Hysteresis.rainfun rainvals (t * Hysteresis.cst_t) j
                                / Hysteresis.cst_Q)) (seq 0 N))).
Proof.
  intros Hok. split.
  - unfold Hysteresis.derivative. apply hysteresis_fun_unbound.
  - intros lam. unfold Hysteresis.derivative, Hysteresis.fun_hV. cbv zeta.
    cbn [Hysteresis.jit_Vfun bind].
    assert (Hh : forall i, (i < N)%nat ->
                   nth i (firstn N (repeat (fin 0) (2 * N))) NaN = Some 0).
    { intros i Hi. rewrite nth_firstn.
      replace (i <? N)%nat with true by (symmetry; apply Nat.ltb_lt; assumption).
      apply nth_repeat_lt. lia. }
    assert (HV : forall i, (i < N)%nat ->
                   nth i (skipn N (repeat (fin 0) (2 * N))) NaN = Some 0).
    { intros i Hi. rewrite nth_skipn. apply nth_repeat_lt. lia. }
    rewrite (comprehension_returned _ (fun _ => fin 0)).
    2:{ intros i Hi. apply in_seq in Hi.
        rewrite Hh, HV by lia.
        destruct (Hok i) as [Hw [HS [Hl [Hhl Hhu]]]]; [lia|].
        rewrite hysteresis_Vfun_zero by assumption. cbn [bind].
        unfold fin. simpl. do 2 f_equal. ring. }
    cbn [bind]. do 2 f_equal.
    + apply (nth_ext _ _ NaN NaN).
      * now rewrite length_map, length_seq, repeat_length.
      * intros i Hi. rewrite length_map, length_seq in Hi.
        rewrite nth_repeat_lt by assumption.
        rewrite (nth_indep _ NaN ((fun _ : nat => fin 0) 0%nat))
          by (now rewrite length_map, length_seq).
        now rewrite (map_nth (fun _ : nat => fin 0)).
    + set (Q := Hysteresis.fun_Q N S w h_l h_u k hcrit
                  (firstn N (repeat (fin 0) (2 * N)))).
      assert (HQlen : length Q = N)
        by (unfold Q, Hysteresis.fun_Q; now rewrite length_map, length_seq).
      assert (HQ : forall i, (i < N)%nat -> nth i Q NaN = Some 0).
      { intros i Hi. unfold Q, Hysteresis.fun_Q.
        set (f := fun i0 => Hysteresis.Qfun S w h_l h_u k hcrit _ i0).
        rewrite (nth_indep _ NaN (f 0%nat)) by (now rewrite length_map, length_seq).
        rewrite (map_nth f), seq_nth by assumption. unfold f. simpl Nat.add.
        rewrite Hh by assumption.
        destruct (Hok i Hi) as [Hw [HS [Hl [Hhl Hhu]]]].
        apply hysteresis_Qfun_zero; try assumption; lra. }
      set (f := fun i => fin (Hysteresis.rainfun rainvals (t * Hysteresis.cst_t) i
                              / Hysteresis.cst_Q)).
      apply (nth_ext _ _ NaN NaN).
      * rewrite vadd_length, vsub_length, dotT_length, HQlen, !length_map,
          !length_seq. lia.
      * intros j Hj.
        rewrite vadd_length, vsub_length, dotT_length, HQlen, !length_map,
          !length_seq in Hj.
        rewrite nth_vadd.
        2:{ rewrite vsub_length, dotT_length, HQlen. lia. }
        2:{ rewrite length_map, length_seq. lia. }
        rewrite nth_vsub by (rewrite ?dotT_length, ?HQlen; lia).
        rewrite dotT_zero by (try assumption; lia). rewrite HQ by lia.
        rewrite (nth_indep _ NaN (f 0%nat)) by (rewrite length_map, length_seq; lia).
        rewrite (map_nth f), seq_nth by lia. unfold f, fin. simpl.
        f_equal. ring.
Qed.

Lemma zero_state_hysteresis_witness :
  Hysteresis.derivative ExampleH.N ExampleH.Adj ExampleH.rainvals ExampleH.l
    ExampleH.S ExampleH.w ExampleH.h_l ExampleH.h_u ExampleH.k ExampleH.hcrit
    (Some Hysteresis.cat_lambda) 0 (repeat (fin 0) (2 * ExampleH.N))
  = Returned
      (repeat (fin 0) ExampleH.N
       ++ map (fun j => fin (Hysteresis.rainfun ExampleH.rainvals
                               (0 * Hysteresis.cst_t) j / Hysteresis.cst_Q))
              (seq 0 ExampleH.N)).
Proof.
  apply (zero_state_hysteresis ExampleH.N ExampleH.Adj ExampleH.rainvals ExampleH.l
           ExampleH.S ExampleH.w ExampleH.h_l ExampleH.h_u ExampleH.k
           ExampleH.hcrit 0).
  unfold ExampleH.N. intros i Hi. assert (i = 0)%nat as -> by lia.
  rewrite ExampleH_w, ExampleH_S, ExampleH_h_l, ExampleH_h_u.
  unfold ExampleH.l, Hysteresis.df_l, Hysteresis.data_l, ExampleH.Shape_Leng,
    Hysteresis.cst_l.
  repeat split; lra.
Defined.

(** ** A NaN volume in the numerical right-hand side *)

(** The table lookup passes a NaN volume on as a NaN discharge, and the
    product with the adjacency matrix spreads it: when one of the [N]
    components of the state is NaN, the lookup returns NaN at that
    component and the numerical right-hand side returns [N] components that
    are all NaN. *)
Theorem nan_volume_spreads
    (N : nat) (Adj : nat -> nat -> R) (rainvals : Z -> nat -> R)
    (l S w h_l h_u k : nat -> R) (hcrit : nat -> float)
    (t : R) (V : list float) (i : nat) :
  length V = N -> nth_error V i = Some NaN ->
  nth_error (Numerical.Qvals N l S w h_l h_u k hcrit V) i = Some NaN /\
  Numerical.derivative N Adj rainvals l S w h_l h_u k hcrit t V = repeat NaN N.
Proof.
  intros HlenV HVe.
  assert (Hi : (i < N)%nat)
    by (rewrite <- HlenV; apply nth_error_Some; congruence).
  assert (HV : nth i V NaN = NaN) by (now apply nth_error_nth).
  assert (HQi : nth i (Numerical.Qvals N l S w h_l h_u k hcrit V) NaN = NaN).
  { rewrite Qvals_nth by assumption. rewrite HV. reflexivity. }
  set (Q := Numerical.Qvals N l S w h_l h_u k hcrit V) in *.
  assert (HQlen : length Q = N)
    by (unfold Q, Numerical.Qvals; now rewrite length_map, length_seq).
  split.
  - rewrite <- HQi. apply nth_error_nth'. now rewrite HQlen.
  - unfold Numerical.derivative. cbv zeta. fold Q.
    apply (nth_ext _ _ NaN NaN).
    + rewrite vadd_length, vsub_length, dotT_length, HQlen, length_map,
        length_seq, repeat_length. lia.
    + intros j Hj.
      rewrite vadd_length, vsub_length, dotT_length, HQlen, length_map,
        length_seq in Hj.
      rewrite nth_vadd.
      2:{ rewrite vsub_length, dotT_length, HQlen. lia. }
      2:{ rewrite length_map, length_seq. lia. }
      rewrite nth_vsub by (rewrite ?dotT_length, ?HQlen; lia).
      rewrite nth_dotT by lia.
      rewrite fsum_nan; [symmetry; apply nth_repeat|].
      apply in_map_iff. exists i. split; [|apply in_seq; lia].
      now rewrite HQi.
Qed.

Lemma nan_volume_spreads_witness :
  nth_error (Numerical.Qvals Example.N Example.l Example.S Example.w Example.h_l
               Example.h_u Example.k Example.hcrit [NaN; Some 0; Some 0]) 0
  = Some NaN /\
  Numerical.derivative Example.N Example.Adj Example.rainvals Example.l
    Example.S Example.w Example.h_l Example.h_u Example.k Example.hcrit 0
    [NaN; Some 0; Some 0] = repeat NaN Example.N.
Proof.
  apply (nan_volume_spreads Example.N Example.Adj Example.rainvals Example.l
           Example.S Example.w Example.h_l Example.h_u Example.k Example.hcrit 0
           [NaN; Some 0; Some 0] 0).
  - reflexivity.
  - reflexivity.
Defined.

(** ** The dispatched discharge is a non-negative number *)

(** For a height from 0 up the dispatched discharge of the numerical
    notebook is a number and not negative, on a segment with non-negative
    width, slope and permeability, dam heights [0 < h_l <= h_u] and a
    critical height that is a number. *)
Theorem Qfun_nonnegative
    (S w h_l h_u k : nat -> R) (hcrit : nat -> float) (i : nat) (c h : R) :
  0 <= w i -> 0 <= S i -> 0 <= k i -> 0 < h_l i <= h_u i ->
  hcrit i = Some c -> 0 <= h ->
  exists q, Numerical.Qfun S w h_l h_u k hcrit (Some h) i = Some q /\ 0 <= q.
Proof.
  intros Hw HS Hk [Hl Hlu] Hc Hh. unfold Numerical.Qfun. rewrite Hc.
  unfold fin. rewrite max_fin.
  destruct (Rlt_dec h (Rmax c (h_l i))) as [Hlt|Hge].
  - rewrite flt_true by assumption.
    unfold Numerical.Qfric, fin. rewrite fpow_fin, np_sqrt_fin by assumption.
    eexists. split; [reflexivity|].
    pose proof (rpow_nonneg h (5 / 3)). pose proof (sqrt_pos (S i)).
    apply Rmult_le_pos; [apply Rmult_le_pos|]; assumption.
  - rewrite flt_false by lra.
    assert (Hhl : h_l i <= h) by (pose proof (Rmax_r c (h_l i)); lra).
    unfold Numerical.Qdam, fin. cbv zeta. fl_red.
    rewrite min_fin, max_fin. rewrite !np_sqrt_fin by lra.
    assert (Hsq : 0 < sqrt (h + h_l i)) by (apply sqrt_lt_R0; lra).
    rewrite fdiv_fin by lra. rewrite fpow_fin by apply Rmax_l. fl_red.
    eexists. split; [reflexivity|].
    pose proof (sqrt_pos h) as Hsh.
    pose proof (rpow_nonneg (Rmax 0 (h - h_u i)) (3 / 2)) as Hp.
    assert (Hmin : 0 <= Rmin (h - h_l i) (h_u i - h_l i))
      by (apply Rmin_glb; lra).
    assert (Hg : 0 <= Numerical.cst_gamma)
      by (rewrite numerical_cst_gamma; pose proof (sqrt_pos 2); lra).
    assert (Ha1 : 0 <= h_l i * h / sqrt (h + h_l i)).
    { apply Rmult_le_pos; [apply Rmult_le_pos; lra|].
      left. now apply Rinv_0_lt_compat. }
    assert (Ha2 : 0 <= k i * sqrt h * Rmin (h - h_l i) (h_u i - h_l i)).
    { apply Rmult_le_pos; [apply Rmult_le_pos|]; assumption. }
    assert (Ha3 : 0 <= 0.6 * 2 / 3 * rpow (Rmax 0 (h - h_u i)) (3 / 2)).
    { apply Rmult_le_pos; [lra | assumption]. }
    apply Rmult_le_pos; [apply Rmult_le_pos; assumption | lra].
Qed.

Lemma Qfun_nonnegative_witness :
  exists q,
    Numerical.Qfun Example.S Example.w Example.h_l Example.h_u Example.k
      Example.hcrit (Some 1) 1 = Some q /\ 0 <= q.
Proof.
  apply (Qfun_nonnegative Example.S Example.w Example.h_l Example.h_u Example.k
           Example.hcrit 1 (Example.h_u 1%nat) 1).
  - rewrite Example_w. lra.
  - rewrite Example_S. lra.
  - unfold Example.k, Numerical.df_k, Example.data_df. simpl. unfold set_at. simpl. lra.
  - rewrite Example_h_l_dam, Example_h_u_dam. lra.
  - reflexivity.
  - lra.
Defined.
